(** * Password-generation service over TCP: model of the C sources

    The development embeds the server loop of [TCP_server.c], the
    generation and control functions of [password.c], the records of
    [protocol.h] and the input handling of [TCP_client.c].

    Conventions.
    - A [char] is an [ascii]; a [const char *] argument is a [string]
      holding the characters in front of the terminator (a NUL inside
      the Rocq string acts as the terminator, as it would in C).
    - A [char] array that the code writes into (the [password] and
      [error_msg] fields of a response) is a [list ascii] of the
      declared capacity; a write outside the array has no defined
      behaviour and yields [None].
    - [int] is 32 bits and [long] 64 bits wide; [atoi] is the C
      library's [(int) strtol(nptr, NULL, 10)], which saturates at the
      range of [long] and is then cut to an [int].
    - An automatic variable that is read before it was assigned holds
      a value that the environment supplies.
    - [rand()] is a sequence [R : nat -> Z] of returned values together
      with the number of calls made so far. *)

From Stdlib Require Import ZArith Lia Ascii String List Bool.
From stdpp Require Import base option list strings.

Open Scope Z_scope.

(** ** The C library functions the program calls *)

Module Libc.

Definition NUL : ascii := "000"%char.

Definition INT_MAX : Z := 2147483647.
Definition INT_MIN : Z := -2147483648.

Definition char_code (c : ascii) : Z := Z.of_N (N_of_ascii c).

(** Conversion of an [int] result to [char] (values used here are in range). *)
Definition char_of_int (z : Z) : ascii := ascii_of_N (Z.to_N (z mod 256)).

Definition in_range (lo hi c : ascii) : bool :=
  (char_code lo <=? char_code c) && (char_code c <=? char_code hi).

(** <ctype.h>, "C" locale. *)
Definition isdigit (c : ascii) : bool := in_range "0" "9" c.
Definition isupper (c : ascii) : bool := in_range "A" "Z" c.
Definition islower (c : ascii) : bool := in_range "a" "z" c.

Definition isspace (c : ascii) : bool :=
  (char_code c =? 32) || ((9 <=? char_code c) && (char_code c <=? 13)).

Definition tolower (c : ascii) : ascii :=
  if isupper c then char_of_int (char_code c + 32) else c.

(** The characters of a C string: everything in front of the first NUL. *)
Fixpoint c_str (s : string) : string :=
  match s with
  | EmptyString => EmptyString
  | String c rest => if (c =? NUL)%char then EmptyString else String c (c_str rest)
  end.

(** [strchr(s, c)]: offset of the first occurrence of [c] in [s], the
    terminating NUL being part of the string; [None] is the null pointer. *)
Fixpoint strchr (s : string) (c : ascii) : option nat :=
  match s with
  | EmptyString => if (c =? NUL)%char then Some O else None
  | String x rest =>
      if (x =? c)%char then Some O
      else if (x =? NUL)%char then None
      else S <$> strchr rest c
  end.

(** [strlen] of an array: [None] when the array holds no terminator. *)
Fixpoint strlen (a : list ascii) : option nat :=
  match a with
  | [] => None
  | c :: rest => if (c =? NUL)%char then Some O else S <$> strlen rest
  end.

(** [strcpy(dst, src)]: the characters of [src] and the terminator
    overwrite the front of [dst]; [None] when [dst] is too small. *)
Definition strcpy (dst : list ascii) (src : string) : option (list ascii) :=
  let bytes := list_ascii_of_string (c_str src) ++ [NUL] in
  if (length bytes <=? length dst)%nat
  then Some (bytes ++ drop (length bytes) dst)
  else None.

(** [a[i] = c] on an array. *)
Definition store (a : list ascii) (i : Z) (c : ascii) : option (list ascii) :=
  if (0 <=? i) && (i <? Z.of_nat (length a))
  then Some (<[Z.to_nat i := c]> a)
  else None.

Fixpoint skip_space (s : string) : string :=
  match s with
  | String c rest => if isspace c then skip_space rest else s
  | EmptyString => s
  end.

(** Value of the leading run of decimal digits, most significant first. *)
Fixpoint digits_value (acc : Z) (s : string) : Z :=
  match s with
  | String c rest =>
      if isdigit c then digits_value (10 * acc + (char_code c - char_code "0")) rest
      else acc
  | EmptyString => acc
  end.

Definition LONG_MAX : Z := 9223372036854775807.
Definition LONG_MIN : Z := -9223372036854775808.

(** The optional sign in front of the digits. *)
Definition sign (s : string) : bool * string :=
  match s with
  | String "-" rest => (true, rest)
  | String "+" rest => (false, rest)
  | _ => (false, s)
  end.

(** [strtol(nptr, NULL, 10)]: white space, an optional sign, decimal
    digits; a value outside the range of [long] is replaced by the
    nearest bound. *)
Definition strtol (nptr : string) : Z :=
  let '(negative, s) := sign (skip_space nptr) in
  let magnitude := digits_value 0 s in
  let value := if negative then - magnitude else magnitude in
  if value <? LONG_MIN then LONG_MIN
  else if LONG_MAX <? value then LONG_MAX
  else value.

(** Conversion of a [long] to [int]: the low 32 bits, read as signed. *)
Definition int_of_long (v : Z) : Z :=
  (v - INT_MIN) mod 4294967296 + INT_MIN.

(** [atoi(nptr)] is [(int) strtol(nptr, NULL, 10)]. *)
Definition atoi (nptr : string) : Z := int_of_long (strtol nptr).

End Libc.

(** ** protocol.h *)

Module Protocol.

Definition BUFFER_SIZE : Z := 1024.
Definition MIN_PASSWORD_LENGTH : Z := 6.
Definition MAX_PASSWORD_LENGTH : Z := 32.
Definition ERROR_MSG_SIZE : Z := 50.

Record MenuMessage := { menu_text : string }.

Record PasswordRequest := {
  type : ascii;       (* char type *)
  length : string     (* char length[BUFFER_SIZE], read as a C string *)
}.

Record PasswordResponse := {
  keep_going : bool;
  password : list ascii;      (* char password[MAX_PASSWORD_LENGTH + 1] *)
  request_error : bool;
  error_msg : list ascii      (* char error_msg[50] *)
}.

(** [sizeof] of the three records (all members have alignment 1). *)
Definition sizeof_MenuMessage : Z := BUFFER_SIZE.
Definition sizeof_PasswordRequest : Z := 1 + BUFFER_SIZE.
Definition sizeof_PasswordResponse : Z :=
  1 + (MAX_PASSWORD_LENGTH + 1) + 1 + ERROR_MSG_SIZE.

End Protocol.

(** ** password.c *)

Module Password.
Import Libc.

Inductive PasswordType := NUMERIC | ALPHA | MIXED | SECURE.

Definition charset : string :=
  "abcdefghijklmnopqrstuvwxyzABCDEFGHIJKLMNOPQRSTUVWXYZ0123456789!@#$%^&*()".

(** [sizeof(charset)]: the characters and the terminator. *)
Definition sizeof_charset : Z := Z.of_nat (String.length charset) + 1.

Section Generation.

(** The values returned by successive calls of [rand()]. *)
Variable R : nat -> Z.

(** One call of [rand()]: the value and the advanced call count. *)
Definition rand (calls : nat) : Z * nat := (R calls, S calls).

(** The right-hand sides of the four loop bodies. *)
Definition numeric_char (calls : nat) : option (ascii * nat) :=
  let '(r, calls) := rand calls in
  Some (char_of_int (char_code "0" + Z.rem r 10), calls).

Definition alpha_char (calls : nat) : option (ascii * nat) :=
  let '(r, calls) := rand calls in
  Some (char_of_int (char_code "a" + Z.rem r 26), calls).

Definition mixed_char (calls : nat) : option (ascii * nat) :=
  let '(coin, calls) := rand calls in
  if negb (Z.rem coin 2 =? 0)
  then let '(r, calls) := rand calls in
       Some (char_of_int (char_code "a" + Z.rem r 26), calls)
  else let '(r, calls) := rand calls in
       Some (char_of_int (char_code "0" + Z.rem r 10), calls).

(** [charset[rand() % (sizeof(charset) - 1)]]; the index is taken
    modulo an unsigned quantity, which agrees with [Z.rem] on the
    non-negative values [rand()] returns. *)
Definition secure_char (calls : nat) : option (ascii * nat) :=
  let '(r, calls) := rand calls in
  let i := Z.rem r (sizeof_charset - 1) in
  if 0 <=? i
  then c ← list_ascii_of_string charset !! Z.to_nat i; Some (c, calls)
  else None.

(** [for (int i = 0; i < length; i++) password[i] = ...], with [todo]
    the number of iterations left. *)
Fixpoint fill (next : nat -> option (ascii * nat)) (todo : nat) (i : Z)
    (password : list ascii) (calls : nat) : option (list ascii * nat) :=
  match todo with
  | O => Some (password, calls)
  | S todo' =>
      '(c, calls') ← next calls;
      password' ← store password i c;
      fill next todo' (i + 1) password' calls'
  end.

Definition generate_with (next : nat -> option (ascii * nat))
    (password : list ascii) (length : Z) (calls : nat)
    : option (list ascii * nat) :=
  '(password, calls) ← fill next (Z.to_nat length) 0 password calls;
  password ← store password length NUL;
  Some (password, calls).

Definition generate_numeric := generate_with numeric_char.
Definition generate_alpha := generate_with alpha_char.
Definition generate_mixed := generate_with mixed_char.
Definition generate_secure := generate_with secure_char.

Definition generate_password (password : list ascii) (type : PasswordType)
    (length : Z) (calls : nat) : option (list ascii * nat) :=
  match type with
  | NUMERIC => generate_numeric password length calls
  | ALPHA => generate_alpha password length calls
  | MIXED => generate_mixed password length calls
  | SECURE => generate_secure password length calls
  end.

End Generation.

Definition keep_generating (type type_for_ending : ascii) : bool :=
  negb (tolower type =? tolower type_for_ending)%char.

Definition control_type (allowed_type : string) (type : ascii) : bool :=
  match strchr allowed_type type with
  | Some _ => true
  | None => false
  end.

(** The digit loop of [control_length]: [false] is the early return. *)
Fixpoint all_digits (length : string) : bool :=
  match length with
  | EmptyString => true
  | String c rest =>
      if (c =? NUL)%char then true
      else if negb (isdigit c) then false
      else all_digits rest
  end.

Definition control_length (length : string) (min_length max_length : Z)
    : bool :=
  if negb (all_digits length) then false
  else
    let numerical_length := atoi length in
    (min_length <=? numerical_length) && (numerical_length <=? max_length).

End Password.

(** ** TCP_server.c: the request loop of [main] *)

Module Server.
Import Libc Protocol Password.

Definition newline : string := String "010" EmptyString.

Definition invalid_length_text : string :=
  String.append "The length for the password is not valid." newline.

Definition invalid_type_text : string :=
  String.append "The type inserted is not valid." newline.

(** [switch (tolower(password_msg.type))]: the switch has no default
    label, so [password_type] stays uninitialised when no case matches. *)
Definition switch_type (c : ascii) : option PasswordType :=
  if (c =? "n")%char then Some NUMERIC
  else if (c =? "a")%char then Some ALPHA
  else if (c =? "m")%char then Some MIXED
  else if (c =? "s")%char then Some SECURE
  else None.

Section Loop.

Variable R : nat -> Z.

(** The body of the do-while loop between [recv] and [send]:
    [response_msg] enters with whatever the previous iteration left, and
    [uninitialised] is what [password_type] holds before the switch
    assigns it: an enumerator, or [None] for a value that is none.
    The switch of [generate_password] has no default label either: for
    a value that is no enumerator it writes nothing. *)
Definition process_request (uninitialised : option PasswordType)
    (password_msg : PasswordRequest)
    (response_msg : PasswordResponse) (calls : nat)
    : option (PasswordResponse * nat) :=
  let keep := keep_generating (type password_msg) "q" in
  if keep then
    if control_type "nams" (type password_msg) then
      if control_length (Protocol.length password_msg)
           MIN_PASSWORD_LENGTH MAX_PASSWORD_LENGTH then
        let numerical_length := atoi (Protocol.length password_msg) in
        let password_type :=
          match switch_type (tolower (type password_msg)) with
          | Some t => Some t
          | None => uninitialised
          end in
        '(pw, calls') ←
          match password_type with
          | Some t => generate_password R (password response_msg) t
                        numerical_length calls
          | None => Some (password response_msg, calls)
          end;
        err ← strcpy (error_msg response_msg) EmptyString;
        Some ({| keep_going := keep; password := pw;
                 request_error := false; error_msg := err |}, calls')
      else
        pw ← strcpy (password response_msg) EmptyString;
        err ← strcpy (error_msg response_msg) invalid_length_text;
        Some ({| keep_going := keep; password := pw;
                 request_error := true; error_msg := err |}, calls)
    else
      pw ← strcpy (password response_msg) EmptyString;
      err ← strcpy (error_msg response_msg) invalid_type_text;
      Some ({| keep_going := keep; password := pw;
               request_error := true; error_msg := err |}, calls)
  else
    pw ← strcpy (password response_msg) EmptyString;
    err ← strcpy (error_msg response_msg) EmptyString;
    Some ({| keep_going := keep; password := pw;
             request_error := false; error_msg := err |}, calls).

(** What the environment does during one iteration: the value [recv]
    returns, the request it leaves in [password_msg], what the
    uninitialised [password_type] holds, and the value the following
    [send] returns. *)
Record round := {
  recv_ret : Z;
  recv_buf : PasswordRequest;
  leftover : option PasswordType;
  send_ret : Z
}.

(** One element of the accept queue: the value [accept] returns, the
    value the [send] of the menu returns, and the rounds of the session. *)
Record connection := {
  accept_ret : Z;
  menu_send_ret : Z;
  rounds : list round
}.

Inductive event :=
| Accepted                              (* accept() gave a client socket *)
| MenuSent                              (* the menu record went out whole *)
| Responded (r : PasswordResponse)      (* a response record went out whole *)
| ClientClosed.                         (* closesocket(client_socket) *)

Inductive session_end :=
| Finished (response_msg : PasswordResponse) (calls : nat) (* keep_going false *)
| Failed (code : Z)                     (* return code; from main *)
| Starved                               (* recv blocks: no further input *)
| Undefined.                            (* a write outside an array *)

(** The do-while loop of one connection. *)
Fixpoint session (script : list round) (response_msg : PasswordResponse)
    (calls : nat) : list event * session_end :=
  match script with
  | [] => ([], Starved)
  | r :: script' =>
      if recv_ret r <=? 0 then ([ClientClosed], Failed (-1))
      else
        match process_request (leftover r) (recv_buf r) response_msg calls with
        | None => ([], Undefined)
        | Some (response_msg', calls') =>
            if negb (send_ret r =? sizeof_PasswordResponse)
            then ([ClientClosed], Failed (-1))
            else if keep_going response_msg'
            then let '(evs, e) := session script' response_msg' calls' in
                 (Responded response_msg' :: evs, e)
            else ([Responded response_msg'; ClientClosed],
                  Finished response_msg' calls')
        end
  end.

Inductive status :=
| Exited (code : Z)      (* main returned *)
| Waiting                (* blocked in accept or recv *)
| Unspecified.           (* a write outside an array was reached *)

(** The [while (1)] loop of [main], after [listen] succeeded. *)
Fixpoint accept_loop (queue : list connection) (response_msg : PasswordResponse)
    (calls : nat) : list event * status :=
  match queue with
  | [] => ([], Waiting)
  | c :: queue' =>
      if accept_ret c <? 0 then ([ClientClosed], Exited 0)
      else if negb (menu_send_ret c =? sizeof_MenuMessage)
      then ([Accepted; ClientClosed], Exited (-1))
      else
        let '(evs, e) := session (rounds c) response_msg calls in
        match e with
        | Finished response_msg' calls' =>
            let '(evs', st) := accept_loop queue' response_msg' calls' in
            (Accepted :: MenuSent :: evs ++ evs', st)
        | Failed code => (Accepted :: MenuSent :: evs, Exited code)
        | Starved => (Accepted :: MenuSent :: evs, Waiting)
        | Undefined => (Accepted :: MenuSent :: evs, Unspecified)
        end
  end.

(** Number of connections the run accepted. *)
Definition is_accept (e : event) : bool :=
  match e with Accepted => true | _ => false end.

Definition accepted (evs : list event) : nat :=
  List.length (List.filter is_accept evs).

End Loop.

End Server.

(** ** TCP_client.c: reading and dispatching one input line *)

Module Client.
Import Libc Protocol.

Definition EOF : Z := -1.

(** The [%s] conversion: the longest run of non-white-space characters
    and what follows it. *)
Fixpoint token (s : string) : string * string :=
  match s with
  | EmptyString => (EmptyString, EmptyString)
  | String c rest =>
      if isspace c then (EmptyString, s)
      else let '(t, rest') := token rest in (String c t, rest')
  end.

(** [sscanf(input, " %c %s %s", &password_msg.type, password_msg.length, input)]:
    the return value and [password_msg] afterwards.  The third
    conversion stores into [input] itself; only its effect on the count
    is kept. *)
Definition sscanf (input : string) (password_msg : PasswordRequest)
    : Z * PasswordRequest :=
  match skip_space (c_str input) with
  | EmptyString => (EOF, password_msg)
  | String c rest =>
      let '(t1, rest1) := token (skip_space rest) in
      match t1 with
      | EmptyString =>
          (1, {| type := c; length := Protocol.length password_msg |})
      | _ =>
          let '(t2, _) := token (skip_space rest1) in
          match t2 with
          | EmptyString => (2, {| type := c; length := t1 |})
          | _ => (3, {| type := c; length := t1 |})
          end
      end
  end.

(** What the network does when the iteration reaches [send] and [recv]. *)
Record exchange := {
  send_ret : Z;
  recv_ret : Z;
  recv_buf : PasswordResponse
}.

Inductive iteration_end :=
| Again (password_msg : PasswordRequest) (response_msg : PasswordResponse)
                                       (* the loop condition held *)
| Done                                 (* keep_going false: close, return 0 *)
| Aborted (code : Z).                  (* transport fault: return code *)

(** One iteration of the do-while loop on the line [fgets] stored in
    [input]: the requests sent to the server and how the iteration ends. *)
Definition iteration (input : string) (password_msg : PasswordRequest)
    (response_msg : PasswordResponse) (net : exchange)
    : list PasswordRequest * iteration_end :=
  let '(arguments, password_msg) := sscanf input password_msg in
  let dispatch (password_msg : PasswordRequest) :=
    if negb (send_ret net =? sizeof_PasswordRequest) then ([], Aborted (-1))
    else if recv_ret net <=? 0 then ([password_msg], Aborted (-1))
    else
      let response_msg := recv_buf net in
      if keep_going response_msg
      then ([password_msg], Again password_msg response_msg)
      else ([password_msg], Done) in
  if arguments =? 1 then
    dispatch {| type := type password_msg; length := "8" |}
  else if negb (arguments =? 2) then
    let response_msg :=
      {| keep_going := true; password := password response_msg;
         request_error := request_error response_msg;
         error_msg := error_msg response_msg |} in
    (* continue: the loop condition reads response_msg.keep_going *)
    if keep_going response_msg
    then ([], Again password_msg response_msg)
    else ([], Done)
  else dispatch password_msg.

End Client.

(** ** utils.c: coloured output *)

Module Utils.
Import Libc.

(** The enumerators of [textColor]; a [textColor] argument is an [int]. *)
Definition BLACK : Z := 0.
Definition RED : Z := 1.
Definition GREEN : Z := 2.
Definition YELLOW : Z := 3.
Definition BLUE : Z := 4.
Definition MAGENTA : Z := 5.
Definition CYAN : Z := 6.
Definition WHITE : Z := 7.
Definition RESET : Z := 8.

(** The two characters every code starts with: ESC (octal 033) and '['. *)
Definition escape (body : string) : string :=
  String "027" (String "[" body).

Definition generate_ansi_color_code (color : Z) : string :=
  if color =? BLACK then escape "30m"
  else if color =? RED then escape "31m"
  else if color =? GREEN then escape "32m"
  else if color =? YELLOW then escape "33m"
  else if color =? BLUE then escape "34m"
  else if color =? MAGENTA then escape "35m"
  else if color =? CYAN then escape "36m"
  else if color =? WHITE then escape "37m"
  else if color =? RESET then escape "0m"
  else escape "0m".

(** [print_with_color]: what [printf("%s%s%s", ...)] writes. *)
Definition print_with_color (text : string) (color : Z) : string :=
  String.append (generate_ansi_color_code color)
    (String.append (c_str text) (generate_ansi_color_code RESET)).

(** [errorhandler] of both programs. *)
Definition errorhandler (errorMessage : string) : string :=
  print_with_color errorMessage MAGENTA.

End Utils.

(** ** Vocabulary of the statements *)

Module Spec.
Import Libc Protocol Password Server.

Definition chars (s : string) : list ascii := list_ascii_of_string s.

(** The C string an array holds: the characters in front of the first NUL. *)
Fixpoint text (a : list ascii) : string :=
  match a with
  | [] => EmptyString
  | c :: rest => if (c =? NUL)%char then EmptyString else String c (text rest)
  end.

Definition lowercase : string := "abcdefghijklmnopqrstuvwxyz".
Definition uppercase : string := "ABCDEFGHIJKLMNOPQRSTUVWXYZ".
Definition digits : string := "0123456789".
Definition symbols : string := "!@#$%^&*()".

(** The alphabet of each generation class. *)
Definition alphabet (t : PasswordType) : list ascii :=
  match t with
  | NUMERIC => chars digits
  | ALPHA => chars lowercase
  | MIXED => chars lowercase ++ chars digits
  | SECURE => chars lowercase ++ chars uppercase ++ chars digits ++ chars symbols
  end.

(** A length text made of decimal digits only, and the number it denotes. *)
Definition digits_only (s : string) : Prop :=
  forall c, In c (chars (c_str s)) -> In c (chars digits).

Definition decimal (s : string) : Z :=
  fold_left (fun acc c => 10 * acc + (char_code c - 48)) (chars (c_str s)) 0.

(** The [int] that is left of the number when it is cut to a [long],
    saturating, and then to 32 bits. *)
Definition int_value (s : string) : Z :=
  int_of_long (Z.min (decimal s) LONG_MAX).

Definition is_sentinel (t : ascii) : Prop := t = "q"%char \/ t = "Q"%char.

(** The arrays of a response have their declared capacities. *)
Definition well_sized (r : PasswordResponse) : Prop :=
  List.length (password r) = 33%nat /\ List.length (error_msg r) = 50%nat.

(** The field shape of a response. *)
Definition shape (r : PasswordResponse) : Prop :=
  if keep_going r then
    if request_error r
    then text (password r) = EmptyString /\ text (error_msg r) <> EmptyString
    else text (password r) <> EmptyString /\ text (error_msg r) = EmptyString
  else text (password r) = EmptyString /\ text (error_msg r) = EmptyString
       /\ request_error r = false.

Definition mem (c : ascii) (l : list ascii) : bool := existsb (Ascii.eqb c) l.

(** [next] always yields a character of [A]. *)
Definition draws_from (next : nat -> option (ascii * nat)) (A : list ascii) : Prop :=
  forall calls, exists c calls', next calls = Some (c, calls') /\ In c A.

(** A transport fault in the session that runs [script]: a [recv] that
    returns zero or an error, or a [send] that transfers another number
    of bytes than the response record has, after any number of rounds
    that went through. *)
Inductive transport_fault (R : nat -> Z)
    : list round -> PasswordResponse -> nat -> Prop :=
| fault_recv r script response_msg calls :
    Server.recv_ret r <= 0 ->
    transport_fault R (r :: script) response_msg calls
| fault_send r script response_msg calls response_msg' calls' :
    0 < Server.recv_ret r ->
    process_request R (leftover r) (Server.recv_buf r) response_msg calls
    = Some (response_msg', calls') ->
    Server.send_ret r <> sizeof_PasswordResponse ->
    transport_fault R (r :: script) response_msg calls
| fault_later r script response_msg calls response_msg' calls' :
    0 < Server.recv_ret r ->
    process_request R (leftover r) (Server.recv_buf r) response_msg calls
    = Some (response_msg', calls') ->
    Server.send_ret r = sizeof_PasswordResponse ->
    keep_going response_msg' = true ->
    transport_fault R script response_msg' calls' ->
    transport_fault R (r :: script) response_msg calls.

(** A [rand()] sequence for the examples below. *)
Definition sample_rand (k : nat) : Z := Z.of_nat (k * k * 31 + k * 7 + 5).

Definition blank_response : PasswordResponse :=
  {| keep_going := false; password := repeat NUL 33;
     request_error := false; error_msg := repeat NUL 50 |}.

(** Two connections for the examples: the peer of the first closes
    after one request, the second sends the sentinel. *)
Definition dropped_connection : connection :=
  {| accept_ret := 4; menu_send_ret := 1024;
     rounds := [ {| Server.recv_ret := 1025;
                    Server.recv_buf := {| type := "n"; length := "8" |};
                    leftover := None;
                    Server.send_ret := 85 |};
                 {| Server.recv_ret := 0;
                    Server.recv_buf := {| type := "n"; length := "8" |};
                    leftover := None;
                    Server.send_ret := 85 |} ] |}.

Definition quitting_connection : connection :=
  {| accept_ret := 5; menu_send_ret := 1024;
     rounds := [ {| Server.recv_ret := 1025;
                    Server.recv_buf := {| type := "q"; length := EmptyString |};
                    leftover := None;
                    Server.send_ret := 85 |} ] |}.

End Spec.

(** ** Further vocabulary *)

Module Setting.
Import Libc Protocol Password Server Spec.

(** Calls of [rand()] per character of a class. *)
Definition stride (t : PasswordType) : nat :=
  match t with MIXED => 2%nat | _ => 1%nat end.

(** The loop body of a class. *)
Definition next_char (R : nat -> Z) (t : PasswordType)
    : nat -> option (ascii * nat) :=
  match t with
  | NUMERIC => numeric_char R
  | ALPHA => alpha_char R
  | MIXED => mixed_char R
  | SECURE => secure_char R
  end.

(** What [password_type] holds when [generate_password] is called: the
    class the switch assigned, or what the variable held before. *)
Definition class_used (uninitialised : option PasswordType) (t : ascii)
    : option PasswordType :=
  match switch_type (tolower t) with
  | Some pt => Some pt
  | None => uninitialised
  end.

(** [next] advances the call count by [n] whenever it yields a character. *)
Definition steps_by (next : nat -> option (ascii * nat)) (n : nat) : Prop :=
  forall k c k', next k = Some (c, k') -> k' = (k + n)%nat.

Fixpoint index_of (c : ascii) (l : list ascii) : nat :=
  match l with
  | [] => O
  | x :: rest => if (x =? c)%char then O else S (index_of c rest)
  end.

(** A [rand()] sequence that makes a class spell the word [w], counted
    from the first call. *)
Definition rand_for (t : PasswordType) (w : list ascii) (k : nat) : Z :=
  match t with
  | NUMERIC => char_code (nth k w "0"%char) - char_code "0"
  | ALPHA => char_code (nth k w "a"%char) - char_code "a"
  | MIXED =>
      let c := nth (k / 2) w "a"%char in
      if Nat.even k then (if isdigit c then 0 else 1)
      else if isdigit c then char_code c - char_code "0"
      else char_code c - char_code "a"
  | SECURE => Z.of_nat (index_of (nth k w "a"%char) (chars charset))
  end.

(** The rounds of a script that were all received, answered whole and
    kept the loop going: the responses they produced, in order, and
    the response and call count they left. *)
Inductive answered (R : nat -> Z)
    : list round -> PasswordResponse -> nat ->
      list PasswordResponse -> PasswordResponse -> nat -> Prop :=
| answered_nil response_msg calls :
    answered R [] response_msg calls [] response_msg calls
| answered_cons rd script response_msg calls r1 c1 rs response_msg' calls' :
    0 < Server.recv_ret rd ->
    process_request R (leftover rd) (Server.recv_buf rd) response_msg calls
    = Some (r1, c1) ->
    Server.send_ret rd = sizeof_PasswordResponse ->
    keep_going r1 = true ->
    answered R script r1 c1 rs response_msg' calls' ->
    answered R (rd :: script) response_msg calls (r1 :: rs) response_msg' calls'.

(** The connections of a queue that were all accepted, got the whole
    menu and ended their session with the sentinel, and the response
    and call count they left. *)
Inductive served_all (R : nat -> Z)
    : list connection -> PasswordResponse -> nat ->
      PasswordResponse -> nat -> Prop :=
| served_nil response_msg calls :
    served_all R [] response_msg calls response_msg calls
| served_cons c queue response_msg calls evs r1 c1 response_msg' calls' :
    0 <= accept_ret c ->
    menu_send_ret c = sizeof_MenuMessage ->
    session R (rounds c) response_msg calls = (evs, Finished r1 c1) ->
    served_all R queue r1 c1 response_msg' calls' ->
    served_all R (c :: queue) response_msg calls response_msg' calls'.

(** The connection was accepted, got the whole menu, and its first
    request carries the sentinel and is answered whole. *)
Definition quits_at_once (c : connection) : Prop :=
  0 <= accept_ret c /\ menu_send_ret c = sizeof_MenuMessage
  /\ exists r script,
       rounds c = r :: script
       /\ 0 < Server.recv_ret r
       /\ is_sentinel (type (Server.recv_buf r))
       /\ Server.send_ret r = sizeof_PasswordResponse.

(** A transport without faults between the client and a server that
    answers [reply]. *)
Definition delivered (reply : PasswordResponse) : Client.exchange :=
  {| Client.send_ret := sizeof_PasswordRequest;
     Client.recv_ret := sizeof_PasswordResponse;
     Client.recv_buf := reply |}.

Definition no_space (s : string) : Prop :=
  forall c, In c (chars s) -> isspace c = false /\ c <> NUL.

Definition blank (s : string) : Prop :=
  forall c, In c (chars s) -> isspace c = true.

End Setting.

Import Libc Protocol Password Server Spec Setting.

(** ** Characters and C strings *)

Ltac each_ascii c := destruct c as [[] [] [] [] [] [] [] []].

Lemma isdigit_digits c : isdigit c = true <-> In c (chars digits).
Proof.
  split.
  - each_ascii c; vm_compute; intros H; try discriminate H; tauto.
  - intros H; vm_compute in H.
    repeat (destruct H as [H | H]; [subst c; reflexivity |]). contradiction.
Qed.

Lemma isdigit_plain c :
  isdigit c = true ->
  isspace c = false /\ c <> "-"%char /\ c <> "+"%char /\ c <> NUL
  /\ 0 <= char_code c - char_code "0" <= 9.
Proof.
  each_ascii c; vm_compute; intros H; try discriminate H;
    repeat split; congruence.
Qed.

Lemma tolower_q c :
  (tolower c =? tolower "q")%char = true <-> is_sentinel c.
Proof.
  unfold is_sentinel. split.
  - each_ascii c; vm_compute; intros H; try discriminate H; tauto.
  - intros [-> | ->]; reflexivity.
Qed.

Lemma eqb_NUL_false c : c <> NUL -> (c =? NUL)%char = false.
Proof. intros H. apply Ascii.eqb_neq. exact H. Qed.

Lemma all_digits_digits_only s : all_digits s = true <-> digits_only s.
Proof.
  unfold digits_only. induction s as [| c s IH]; simpl.
  - split; [intros _ c [] | reflexivity].
  - destruct (Ascii.eqb_spec c NUL) as [-> | Hc]; simpl.
    + split; [intros _ c [] | reflexivity].
    + destruct (isdigit c) eqn:Hd; simpl.
      * rewrite IH. split.
        -- intros H x [<- | Hx]; [now apply isdigit_digits | now apply H].
        -- intros H x Hx. apply H. now right.
      * split; [discriminate |]. intros H.
        assert (In c (chars digits)) as Hin by (apply H; now left).
        apply isdigit_digits in Hin. congruence.
Qed.

Lemma digits_value_decimal s acc :
  all_digits s = true ->
  digits_value acc s =
  fold_left (fun a c => 10 * a + (char_code c - 48)) (chars (c_str s)) acc.
Proof.
  revert acc. induction s as [| c s IH]; intros acc; simpl; [reflexivity |].
  destruct (Ascii.eqb_spec c NUL) as [-> | Hc]; simpl; [reflexivity |].
  destruct (isdigit c) eqn:Hd; simpl; [| discriminate].
  intros H. now rewrite IH.
Qed.

Lemma fold_decimal_ge l acc :
  0 <= acc ->
  (forall c, In c l -> isdigit c = true) ->
  acc <= fold_left (fun a c => 10 * a + (char_code c - 48)) l acc.
Proof.
  revert acc. induction l as [| c l IH]; intros acc Hacc Hl; simpl; [lia |].
  assert (isdigit c = true) as Hd by (apply Hl; now left).
  apply isdigit_plain in Hd as (_ & _ & _ & _ & Hd).
  change (char_code "0") with 48 in Hd.
  etransitivity; [| apply IH]; [lia | lia |].
  intros x Hx. apply Hl. now right.
Qed.

Lemma decimal_nonneg s : digits_only s -> 0 <= decimal s.
Proof.
  intros H. unfold decimal. apply fold_decimal_ge; [lia |].
  intros c Hc. apply isdigit_digits. now apply H.
Qed.

Lemma int_of_long_small v : INT_MIN <= v <= INT_MAX -> int_of_long v = v.
Proof.
  unfold int_of_long, INT_MIN, INT_MAX. intros H.
  rewrite Z.mod_small by lia. lia.
Qed.

Lemma int_of_long_range v : INT_MIN <= int_of_long v <= INT_MAX.
Proof.
  unfold int_of_long, INT_MIN, INT_MAX.
  pose proof (Z.mod_pos_bound (v - -2147483648) 4294967296 ltac:(lia)). lia.
Qed.

(** On a text of digits [atoi] is the decimal value, cut to a [long]
    and then to an [int]. *)
Lemma atoi_digits s : all_digits s = true -> atoi s = int_value s.
Proof.
  intros Hall.
  assert (0 <= decimal s) as Hpos
    by (apply decimal_nonneg; now apply all_digits_digits_only).
  assert (digits_value 0 s = decimal s) as Hval
    by (unfold decimal; now apply digits_value_decimal).
  assert (sign (skip_space s) = (false, s)) as Hsign.
  { destruct s as [| c s]; [reflexivity |]. simpl in Hall.
    destruct (Ascii.eqb_spec c NUL) as [-> | Hc]; [reflexivity |].
    destruct (isdigit c) eqn:Hd; [| discriminate Hall].
    apply isdigit_plain in Hd as (Hsp & Hminus & Hplus & _).
    simpl skip_space. rewrite Hsp.
    each_ascii c; try congruence; reflexivity. }
  unfold atoi, int_value, strtol. rewrite Hsign, Hval. f_equal.
  unfold LONG_MIN, LONG_MAX in *.
  replace (decimal s <? -9223372036854775808) with false by (symmetry; lia).
  destruct (9223372036854775807 <? decimal s) eqn:Hle; lia.
Qed.

Lemma int_value_small s :
  digits_only s -> decimal s <= INT_MAX -> int_value s = decimal s.
Proof.
  intros Hd Hmax. apply decimal_nonneg in Hd. unfold int_value.
  rewrite Z.min_l by (unfold INT_MAX, LONG_MAX in *; lia).
  apply int_of_long_small. unfold INT_MIN. lia.
Qed.

Lemma int_value_le s :
  digits_only s -> int_value s <= Z.max (decimal s) INT_MAX
  /\ (0 <= int_value s -> int_value s <= decimal s).
Proof.
  intros Hd. pose proof (int_of_long_range (Z.min (decimal s) LONG_MAX)) as Hr.
  fold (int_value s) in Hr.
  destruct (Z_le_gt_dec (decimal s) INT_MAX) as [Hle | Hgt].
  - rewrite (int_value_small s Hd Hle). lia.
  - lia.
Qed.

(** ** The length check *)

Lemma control_length_not_digits s min max :
  ~ digits_only s -> control_length s min max = false.
Proof.
  intros H. unfold control_length.
  destruct (all_digits s) eqn:Hall; [| reflexivity].
  apply all_digits_digits_only in Hall. contradiction.
Qed.

Lemma control_length_value s min max :
  digits_only s ->
  control_length s min max = (min <=? int_value s) && (int_value s <=? max).
Proof.
  intros Hd. apply all_digits_digits_only in Hd.
  unfold control_length. rewrite Hd, (atoi_digits _ Hd). reflexivity.
Qed.

Lemma control_length_digits s min max :
  digits_only s -> decimal s <= INT_MAX ->
  control_length s min max = (min <=? decimal s) && (decimal s <=? max).
Proof.
  intros Hd Hmax.
  now rewrite control_length_value, int_value_small.
Qed.

Lemma control_length_accepted s min max :
  control_length s min max = true <->
  digits_only s /\ min <= int_value s <= max.
Proof.
  split.
  - intros H. destruct (all_digits s) eqn:Hall.
    + apply all_digits_digits_only in Hall.
      rewrite control_length_value in H by exact Hall.
      split; [exact Hall | lia].
    + unfold control_length in H. rewrite Hall in H. discriminate H.
  - intros [Hd Hr]. rewrite control_length_value by exact Hd. lia.
Qed.

Lemma control_length_in_range s min max :
  digits_only s -> min <= decimal s <= max -> max <= INT_MAX ->
  control_length s min max = true.
Proof.
  intros Hd Hr Hmax. rewrite control_length_digits by (auto; lia). lia.
Qed.

(** What an accepted length text makes [atoi] return. *)
Lemma accepted_length s :
  control_length s 6 32 = true ->
  digits_only s /\ 6 <= atoi s <= 32 /\ atoi s <= decimal s.
Proof.
  intros H. apply control_length_accepted in H as [Hd Hr].
  rewrite atoi_digits by now apply all_digits_digits_only.
  split; [exact Hd |]. split; [exact Hr |].
  apply (int_value_le s Hd). lia.
Qed.

(** C5.  [control_length] accepts a text of digits whose value is far
    outside [6, 32]: "4294967304" is 2^32 + 8, [atoi] cuts it to the
    [int] 8, and the check returns true.  On the texts whose value an
    [int] holds the check is as the claim says: true exactly for digits
    only and a value in [6, 32]; a text with another character and the
    empty text are refused, "6" and "32" are accepted, "5" and "33"
    refused. *)
Theorem control_length_accepts_overflow :
  digits_only "4294967304"
  /\ decimal "4294967304" = 4294967304
  /\ atoi "4294967304" = 8
  /\ control_length "4294967304" 6 32 = true
  /\ (forall s, decimal s <= INT_MAX ->
        (control_length s 6 32 = true <->
         digits_only s /\ 6 <= decimal s <= 32))
  /\ (forall s, ~ digits_only s -> control_length s 6 32 = false)
  /\ control_length EmptyString 6 32 = false
  /\ control_length "6" 6 32 = true
  /\ control_length "32" 6 32 = true
  /\ control_length "5" 6 32 = false
  /\ control_length "33" 6 32 = false.
Proof.
  split.
  { intros c Hc. apply isdigit_digits. vm_compute in Hc.
    repeat (destruct Hc as [<- | Hc]; [reflexivity |]). contradiction. }
  split; [reflexivity |]. split; [reflexivity |]. split; [reflexivity |].
  split; [| split].
  - intros s Hs. rewrite control_length_accepted. split.
    + intros [Hd Hr]. rewrite (int_value_small s Hd Hs) in Hr. auto.
    + intros [Hd Hr]. rewrite (int_value_small s Hd Hs). auto.
  - intros s. apply control_length_not_digits.
  - repeat split; reflexivity.
Qed.

Lemma digits_only_008 : digits_only "008".
Proof.
  intros c Hc. vm_compute in Hc. apply isdigit_digits.
  destruct Hc as [<- | [<- | [<- | []]]]; reflexivity.
Defined.

Lemma control_length_accepts_overflow_witness :
  control_length "008" 6 32 = true
  /\ control_length "8x" 6 32 = false.
Proof.
  destruct control_length_accepts_overflow as (_ & _ & _ & _ & Hiff & Hnot & _).
  split.
  - apply Hiff; [vm_compute; discriminate |].
    split; [exact digits_only_008 | vm_compute; split; discriminate].
  - apply Hnot. intros H.
    assert (In "x"%char (chars digits)) as Hx by (apply H; vm_compute; tauto).
    apply isdigit_digits in Hx. discriminate Hx.
Defined.

(** ** The alphabet of the SECURE class *)

Lemma mem_In c l : mem c l = true <-> In c l.
Proof.
  unfold mem. rewrite existsb_exists. split.
  - intros (x & Hx & Heq). apply Ascii.eqb_eq in Heq. now subst.
  - intros H. exists c. split; [exact H | apply Ascii.eqb_refl].
Qed.

Lemma charset_classes c :
  In c (chars charset) <->
  In c (chars lowercase) \/ In c (chars uppercase)
  \/ In c (chars digits) \/ In c (chars symbols).
Proof.
  rewrite <- !mem_In, <- !orb_true_iff.
  assert (mem c (chars charset) =
          mem c (chars lowercase) || (mem c (chars uppercase)
          || (mem c (chars digits) || mem c (chars symbols)))) as ->
    by (each_ascii c; reflexivity).
  reflexivity.
Qed.

Lemma charset_alphabet c : In c (chars charset) <-> In c (alphabet SECURE).
Proof. rewrite charset_classes. unfold alphabet. rewrite !in_app_iff. reflexivity. Qed.

Lemma secure_char_inv R calls c calls' :
  secure_char R calls = Some (c, calls') ->
  calls' = S calls /\ In c (chars charset).
Proof.
  unfold secure_char, rand.
  destruct (0 <=? Z.rem (R calls) (sizeof_charset - 1)); [| discriminate].
  intros H. apply bind_Some in H as (x & Hx & [= <- <-]).
  split; [reflexivity |].
  apply list_elem_of_In, list_elem_of_lookup. eauto.
Qed.

(** C4, amended.  The alphabet the SECURE class draws from is a fixed
    set of exactly 72 distinct characters (not 74): the 26 lowercase
    letters, the 26 uppercase letters, the 10 digits and the 10 symbols
    of "!@#$%^&*()"; each of them can be drawn and nothing else. *)
Theorem secure_alphabet_72 :
  NoDup (chars charset)
  /\ List.length (chars charset) = 72%nat
  /\ sizeof_charset - 1 = 72
  /\ (forall c, In c (chars charset) <->
        In c (chars lowercase) \/ In c (chars uppercase)
        \/ In c (chars digits) \/ In c (chars symbols))
  /\ (forall c, In c (chars charset) <->
        exists r, 0 <= r /\ secure_char (fun _ => r) O = Some (c, 1%nat)).
Proof.
  split; [| split; [| split; [| split]]].
  - apply (bool_decide_unpack _). vm_compute. exact I.
  - reflexivity.
  - reflexivity.
  - exact charset_classes.
  - intros c. split.
    + intros H. apply list_elem_of_In, list_elem_of_lookup in H as [i Hi].
      assert (i < 72)%nat as Hlt by (apply lookup_lt_Some in Hi; exact Hi).
      exists (Z.of_nat i). split; [lia |].
      unfold secure_char, rand. change (sizeof_charset - 1) with 72.
      rewrite Z.rem_small by lia.
      replace (0 <=? Z.of_nat i) with true by (symmetry; lia).
      rewrite Nat2Z.id. unfold chars in Hi. rewrite Hi. reflexivity.
    + intros (r & _ & H). now apply secure_char_inv in H.
Qed.

(** C4 as stated fails: the alphabet does not have 74 characters. *)
Lemma secure_alphabet_not_74 :
  ~ (NoDup (chars charset) /\ List.length (chars charset) = 74%nat).
Proof. intros [_ H]. vm_compute in H. discriminate H. Qed.

(** ** Password generation *)

Lemma range_check (P : Z -> bool) (n : nat) :
  forallb (fun k => P (Z.of_nat k)) (seq 0 n) = true ->
  forall d, 0 <= d < Z.of_nat n -> P d = true.
Proof.
  intros H d Hd. rewrite forallb_forall in H.
  specialize (H (Z.to_nat d)). rewrite Z2Nat.id in H by lia.
  apply H. apply in_seq. lia.
Qed.

Lemma digit_offset d : 0 <= d < 10 -> In (char_of_int (char_code "0" + d)) (chars digits).
Proof.
  intros Hd. apply mem_In.
  apply (range_check (fun d => mem (char_of_int (char_code "0" + d)) (chars digits)) 10);
    [reflexivity | exact Hd].
Qed.

Lemma letter_offset d : 0 <= d < 26 -> In (char_of_int (char_code "a" + d)) (chars lowercase).
Proof.
  intros Hd. apply mem_In.
  apply (range_check (fun d => mem (char_of_int (char_code "a" + d)) (chars lowercase)) 26);
    [reflexivity | exact Hd].
Qed.

Lemma alphabet_not_NUL t c : In c (alphabet t) -> c <> NUL.
Proof.
  intros H ->. apply mem_In in H.
  destruct t; vm_compute in H; discriminate H.
Qed.

Section Draws.

Variable R : nat -> Z.
Hypothesis rand_nonneg : forall k, 0 <= R k.

Lemma numeric_char_draws : draws_from (numeric_char R) (alphabet NUMERIC).
Proof.
  intros calls. eexists _, _. split; [reflexivity |].
  apply digit_offset, Z.rem_bound_pos; [apply rand_nonneg | lia].
Qed.

Lemma alpha_char_draws : draws_from (alpha_char R) (alphabet ALPHA).
Proof.
  intros calls. eexists _, _. split; [reflexivity |].
  apply letter_offset, Z.rem_bound_pos; [apply rand_nonneg | lia].
Qed.

Lemma mixed_char_draws : draws_from (mixed_char R) (alphabet MIXED).
Proof.
  intros calls. unfold mixed_char, rand.
  destruct (negb (Z.rem (R calls) 2 =? 0)); eexists _, _;
    (split; [reflexivity |]); unfold alphabet; apply in_app_iff.
  - left. apply letter_offset, Z.rem_bound_pos; [apply rand_nonneg | lia].
  - right. apply digit_offset, Z.rem_bound_pos; [apply rand_nonneg | lia].
Qed.

Lemma secure_char_draws : draws_from (secure_char R) (alphabet SECURE).
Proof.
  intros calls. unfold secure_char, rand. change (sizeof_charset - 1) with 72.
  pose proof (Z.rem_bound_pos (R calls) 72 (rand_nonneg calls) ltac:(lia)) as Hr.
  replace (0 <=? Z.rem (R calls) 72) with true by (symmetry; lia).
  destruct (lookup_lt_is_Some_2 (list_ascii_of_string charset)
              (Z.to_nat (Z.rem (R calls) 72))) as [c Hc].
  { change (List.length (list_ascii_of_string charset)) with 72%nat. lia. }
  exists c, (S calls). rewrite Hc. split; [reflexivity |].
  apply charset_alphabet, list_elem_of_In, list_elem_of_lookup. eauto.
Qed.

End Draws.

Lemma store_in_bounds a i c :
  0 <= i < Z.of_nat (List.length a) ->
  store a i c = Some (<[Z.to_nat i := c]> a).
Proof.
  intros H. unfold store.
  replace (0 <=? i) with true by (symmetry; lia).
  replace (i <? Z.of_nat (List.length a)) with true by (symmetry; lia).
  reflexivity.
Qed.

(** The loop writes the cells [i .. i + todo - 1] and nothing else. *)
Lemma fill_cells next A (Hnext : draws_from next A) todo :
  forall i password calls,
    0 <= i -> i + Z.of_nat todo <= Z.of_nat (List.length password) ->
    exists p calls',
      fill next todo i password calls = Some (p, calls')
      /\ List.length p = List.length password
      /\ (forall j, (j < Z.to_nat i)%nat -> p !! j = password !! j)
      /\ (forall j, (Z.to_nat i + todo <= j)%nat -> p !! j = password !! j)
      /\ (forall j, (Z.to_nat i <= j < Z.to_nat i + todo)%nat ->
            exists c, p !! j = Some c /\ In c A).
Proof.
  induction todo as [| todo IH]; intros i password calls Hi Hlen.
  - exists password, calls. repeat split; auto. intros j Hj. lia.
  - destruct (Hnext calls) as (c & calls1 & Hc & HcA).
    cbn [fill]. rewrite Hc. cbn.
    rewrite store_in_bounds by lia. cbn.
    destruct (IH (i + 1) (<[Z.to_nat i := c]> password) calls1)
      as (p & calls' & Hfill & Hl & Hlow & Hhigh & Hmid).
    { lia. }
    { rewrite length_insert. lia. }
    rewrite length_insert in Hl.
    replace (Z.to_nat (i + 1)) with (S (Z.to_nat i)) in * by lia.
    exists p, calls'. split; [exact Hfill |]. split; [exact Hl |].
    split; [| split].
    + intros j Hj. rewrite Hlow by lia. apply list_lookup_insert_ne. lia.
    + intros j Hj. rewrite Hhigh by lia. apply list_lookup_insert_ne. lia.
    + intros j Hj. destruct (decide (j = Z.to_nat i)) as [-> | Hne].
      * exists c. split; [| exact HcA].
        rewrite Hlow by lia. apply list_lookup_insert_eq. lia.
      * apply Hmid. lia.
Qed.

(** An array whose first [n] cells are not NUL and whose cell [n] is
    NUL holds a C string of [n] characters, namely those cells. *)
Lemma text_of_cells (P : ascii -> Prop) n :
  forall a : list ascii,
    (forall j, (j < n)%nat -> exists c, a !! j = Some c /\ P c /\ c <> NUL) ->
    a !! n = Some NUL ->
    strlen a = Some n /\ String.length (text a) = n
    /\ forall c, In c (chars (text a)) -> P c.
Proof.
  induction n as [| n IH]; intros a Hcells Hend.
  - destruct a as [| x a]; [discriminate Hend |]. injection Hend as ->.
    simpl. repeat split. intros c [].
  - destruct a as [| x a]; [discriminate Hend |].
    destruct (Hcells O ltac:(lia)) as (c & Hc & HP & Hnz). injection Hc as ->.
    destruct (IH a) as (Hs & Hl & Hin).
    { intros j Hj. apply (Hcells (S j)). lia. }
    { exact Hend. }
    simpl. rewrite (eqb_NUL_false _ Hnz), Hs. simpl. rewrite Hl.
    repeat split. intros x [<- | Hx]; [exact HP | now apply Hin].
Qed.

Lemma generate_with_text next A (Hnext : draws_from next A)
    (HA : forall c, In c A -> c <> NUL) password len calls :
  0 <= len < Z.of_nat (List.length password) ->
  exists p calls',
    generate_with next password len calls = Some (p, calls')
    /\ List.length p = List.length password
    /\ strlen p = Some (Z.to_nat len)
    /\ String.length (text p) = Z.to_nat len
    /\ forall c, In c (chars (text p)) -> In c A.
Proof.
  intros Hlen.
  destruct (fill_cells next A Hnext (Z.to_nat len) 0 password calls)
    as (p & calls' & Hfill & Hl & _ & _ & Hmid); [lia | lia |].
  unfold generate_with. rewrite Hfill. cbn.
  rewrite store_in_bounds by lia. cbn.
  eexists _, _. split; [reflexivity |].
  split; [rewrite length_insert; exact Hl |].
  apply (text_of_cells (fun c => In c A)).
  - intros j Hj. destruct (Hmid j) as (c & Hc & HcA); [simpl; lia |].
    exists c. split; [| split; [exact HcA | now apply HA]].
    rewrite list_lookup_insert_ne by lia. exact Hc.
  - apply list_lookup_insert_eq. lia.
Qed.

(** The string [generate_password] leaves in a 33-byte array. *)
Lemma generate_password_text
    (R : nat -> Z) (rand_nonneg : forall k, 0 <= R k)
    (password : list ascii) (t : PasswordType) (len : Z) (calls : nat) :
  0 <= len <= 32 ->
  List.length password = 33%nat ->
  exists p calls',
    generate_password R password t len calls = Some (p, calls')
    /\ List.length p = 33%nat
    /\ strlen p = Some (Z.to_nat len)
    /\ String.length (text p) = Z.to_nat len
    /\ forall c, In c (chars (text p)) -> In c (alphabet t).
Proof.
  intros Hlen Hcap.
  assert (0 <= len < Z.of_nat (List.length password)) as Hin by lia.
  rewrite <- Hcap.
  destruct t; cbn [generate_password];
    unfold generate_numeric, generate_alpha, generate_mixed, generate_secure.
  - apply (generate_with_text _ (alphabet NUMERIC));
      [now apply numeric_char_draws | apply alphabet_not_NUL | exact Hin].
  - apply (generate_with_text _ (alphabet ALPHA));
      [now apply alpha_char_draws | apply alphabet_not_NUL | exact Hin].
  - apply (generate_with_text _ (alphabet MIXED));
      [now apply mixed_char_draws | apply alphabet_not_NUL | exact Hin].
  - apply (generate_with_text _ (alphabet SECURE));
      [now apply secure_char_draws | apply alphabet_not_NUL | exact Hin].
Qed.

(** C3.  For every length in [6, 32], each of the four classes and a
    33-byte [password] array, [generate_password] succeeds and leaves a
    NUL-terminated string of exactly that many characters, each taken
    from the alphabet of the class (digits; lowercase letters;
    lowercase letters and digits; letters, digits and the symbols
    of "!@#$%^&*()"). *)
Theorem generate_password_length_alphabet
    (R : nat -> Z) (rand_nonneg : forall k, 0 <= R k)
    (password : list ascii) (t : PasswordType) (len : Z) (calls : nat) :
  6 <= len <= 32 ->
  List.length password = 33%nat ->
  exists p calls',
    generate_password R password t len calls = Some (p, calls')
    /\ List.length p = 33%nat
    /\ strlen p = Some (Z.to_nat len)
    /\ String.length (text p) = Z.to_nat len
    /\ forall c, In c (chars (text p)) -> In c (alphabet t).
Proof.
  intros Hlen Hcap.
  apply generate_password_text; [exact rand_nonneg | lia | exact Hcap].
Qed.

Lemma sample_rand_nonneg k : 0 <= sample_rand k.
Proof. unfold sample_rand. lia. Defined.

Lemma generate_password_length_alphabet_witness :
  exists p calls',
    generate_password sample_rand (repeat NUL 33) SECURE 8 O = Some (p, calls')
    /\ List.length p = 33%nat
    /\ strlen p = Some 8%nat
    /\ String.length (text p) = 8%nat
    /\ forall c, In c (chars (text p)) -> In c (alphabet SECURE).
Proof.
  apply (generate_password_length_alphabet sample_rand sample_rand_nonneg
           (repeat NUL 33) SECURE 8 O); [lia | reflexivity].
Defined.

(** ** One iteration of the server loop *)

Lemma length_chars s : List.length (chars s) = String.length s.
Proof. induction s as [| c s IH]; simpl; [reflexivity | now rewrite IH]. Qed.

Lemma text_c_str s rest : text (chars (c_str s) ++ NUL :: rest) = c_str s.
Proof.
  induction s as [| c s IH]; simpl; [reflexivity |].
  destruct (Ascii.eqb_spec c NUL) as [-> | Hc]; simpl; [reflexivity |].
  rewrite (eqb_NUL_false _ Hc). now rewrite IH.
Qed.

Lemma strcpy_fits dst src :
  (String.length (c_str src) < List.length dst)%nat ->
  exists d, strcpy dst src = Some d
            /\ List.length d = List.length dst
            /\ text d = c_str src.
Proof.
  intros H. unfold strcpy. fold (chars (c_str src)).
  assert (List.length (chars (c_str src) ++ [NUL]) = S (String.length (c_str src)))
    as Hl by (rewrite length_app, length_chars; simpl; lia).
  rewrite Hl.
  replace (S (String.length (c_str src)) <=? List.length dst)%nat with true
    by (symmetry; apply Nat.leb_le; lia).
  eexists. split; [reflexivity |]. split.
  - rewrite length_app, Hl, length_drop. lia.
  - rewrite <- app_assoc. apply text_c_str.
Qed.

Lemma keep_generating_sentinel t : keep_generating t "q" = false <-> is_sentinel t.
Proof.
  unfold keep_generating. rewrite negb_false_iff. apply tolower_q.
Qed.

Lemma keep_generating_other t : keep_generating t "q" = true <-> ~ is_sentinel t.
Proof.
  rewrite <- keep_generating_sentinel. destruct (keep_generating t "q"); split;
    congruence.
Qed.

(** What [strchr("nams", type)] accepts: the four lowercase letters,
    and NUL, which matches the terminator of the literal. *)
Lemma control_type_nams t :
  control_type "nams" t = true <->
  t = "n"%char \/ t = "a"%char \/ t = "m"%char \/ t = "s"%char \/ t = NUL.
Proof.
  split.
  - each_ascii t; vm_compute; intros H; try discriminate H; tauto.
  - intros [-> | [-> | [-> | [-> | ->]]]]; reflexivity.
Qed.

Section Iteration.

Variable R : nat -> Z.
Variable uninitialised : option PasswordType.

Variables (password_msg : PasswordRequest) (response_msg : PasswordResponse).
Variable calls : nat.
Hypothesis sized : well_sized response_msg.

Lemma clear_password :
  exists pw, strcpy (password response_msg) EmptyString = Some pw
             /\ List.length pw = 33%nat /\ text pw = EmptyString.
Proof.
  destruct sized as [Hp _].
  destruct (strcpy_fits (password response_msg) EmptyString) as (pw & H1 & H2 & H3).
  { rewrite Hp. simpl. lia. }
  exists pw. rewrite H2, Hp. auto.
Qed.

Lemma set_error_msg msg :
  (String.length (c_str msg) < 50)%nat ->
  exists err, strcpy (error_msg response_msg) msg = Some err
              /\ List.length err = 50%nat /\ text err = c_str msg.
Proof.
  intros Hm. destruct sized as [_ He].
  destruct (strcpy_fits (error_msg response_msg) msg) as (err & H1 & H2 & H3).
  { rewrite He. exact Hm. }
  exists err. rewrite H2, He. auto.
Qed.

(** The sentinel branch. *)
Lemma process_request_sentinel :
  is_sentinel (type password_msg) ->
  exists r, process_request R uninitialised password_msg response_msg calls
            = Some (r, calls)
            /\ well_sized r
            /\ keep_going r = false /\ request_error r = false
            /\ text (password r) = EmptyString
            /\ text (error_msg r) = EmptyString.
Proof.
  intros Hs. apply keep_generating_sentinel in Hs.
  destruct clear_password as (pw & Hpw & Hpl & Hpt).
  destruct (set_error_msg EmptyString) as (err & Herr & Hel & Het); [simpl; lia |].
  unfold process_request. rewrite Hs. cbv zeta iota. rewrite Hpw, Herr.
  eexists. split; [reflexivity |]. unfold well_sized. simpl. auto.
Qed.

(** The branch of a refused type. *)
Lemma process_request_bad_type :
  ~ is_sentinel (type password_msg) ->
  control_type "nams" (type password_msg) = false ->
  exists r, process_request R uninitialised password_msg response_msg calls
            = Some (r, calls)
            /\ well_sized r
            /\ keep_going r = true /\ request_error r = true
            /\ text (password r) = EmptyString
            /\ text (error_msg r) = invalid_type_text.
Proof.
  intros Hs Ht. apply keep_generating_other in Hs.
  destruct clear_password as (pw & Hpw & Hpl & Hpt).
  destruct (set_error_msg invalid_type_text) as (err & Herr & Hel & Het);
    [vm_compute; lia |].
  unfold process_request. rewrite Hs, Ht. cbv zeta iota. rewrite Hpw, Herr.
  eexists. split; [reflexivity |]. unfold well_sized. simpl. auto.
Qed.

(** The branch of a refused length. *)
Lemma process_request_bad_length :
  ~ is_sentinel (type password_msg) ->
  control_type "nams" (type password_msg) = true ->
  control_length (Protocol.length password_msg) 6 32 = false ->
  exists r, process_request R uninitialised password_msg response_msg calls
            = Some (r, calls)
            /\ well_sized r
            /\ keep_going r = true /\ request_error r = true
            /\ text (password r) = EmptyString
            /\ text (error_msg r) = invalid_length_text.
Proof.
  intros Hs Ht Hl. apply keep_generating_other in Hs.
  destruct clear_password as (pw & Hpw & Hpl & Hpt).
  destruct (set_error_msg invalid_length_text) as (err & Herr & Hel & Het);
    [vm_compute; lia |].
  unfold process_request. rewrite Hs, Ht. cbv zeta iota.
  change MIN_PASSWORD_LENGTH with 6. change MAX_PASSWORD_LENGTH with 32.
  rewrite Hl. cbv iota. rewrite Hpw, Herr.
  eexists. split; [reflexivity |]. unfold well_sized. simpl. auto.
Qed.

(** The accepted branch when [password_type] holds no enumerator:
    nothing is generated and the password of the previous response
    stays. *)
Lemma process_request_writes_nothing :
  ~ is_sentinel (type password_msg) ->
  control_type "nams" (type password_msg) = true ->
  control_length (Protocol.length password_msg) 6 32 = true ->
  class_used uninitialised (type password_msg) = None ->
  exists r, process_request R uninitialised password_msg response_msg calls
            = Some (r, calls)
            /\ well_sized r
            /\ keep_going r = true /\ request_error r = false
            /\ password r = password response_msg
            /\ text (error_msg r) = EmptyString.
Proof.
  intros Hs Ht Hl Hc. apply keep_generating_other in Hs.
  destruct (set_error_msg EmptyString) as (err & Herr & Hel & Het); [simpl; lia |].
  unfold process_request. rewrite Hs, Ht. cbv zeta iota.
  change MIN_PASSWORD_LENGTH with 6. change MAX_PASSWORD_LENGTH with 32.
  rewrite Hl. cbv iota. unfold class_used in Hc. rewrite Hc.
  cbn [mbind option_bind]. rewrite Herr.
  eexists. split; [reflexivity |]. destruct sized as [Hp _].
  unfold well_sized. simpl. auto.
Qed.

Hypothesis rand_nonneg : forall k, 0 <= R k.

(** The branch that generates a password. *)
Lemma process_request_generates pt :
  ~ is_sentinel (type password_msg) ->
  control_type "nams" (type password_msg) = true ->
  control_length (Protocol.length password_msg) 6 32 = true ->
  class_used uninitialised (type password_msg) = Some pt ->
  exists r calls',
    process_request R uninitialised password_msg response_msg calls
    = Some (r, calls')
    /\ well_sized r
    /\ keep_going r = true /\ request_error r = false
    /\ strlen (password r) = Some (Z.to_nat (atoi (Protocol.length password_msg)))
    /\ String.length (text (password r))
       = Z.to_nat (atoi (Protocol.length password_msg))
    /\ (forall c, In c (chars (text (password r))) -> In c (alphabet pt))
    /\ text (error_msg r) = EmptyString.
Proof.
  intros Hs Ht Hl Hpt. apply keep_generating_other in Hs.
  destruct (accepted_length _ Hl) as (_ & Hrange & _).
  destruct sized as [Hp He].
  destruct (generate_password_text R rand_nonneg
              (password response_msg) pt
              (atoi (Protocol.length password_msg)) calls
              ltac:(lia) Hp)
    as (p & calls' & Hgen & Hpl & Hstr & Hlen & Halpha).
  destruct (set_error_msg EmptyString) as (err & Herr & Hel & Het); [simpl; lia |].
  unfold process_request. rewrite Hs, Ht. cbv zeta iota.
  change MIN_PASSWORD_LENGTH with 6. change MAX_PASSWORD_LENGTH with 32.
  rewrite Hl. cbv iota. unfold class_used in Hpt. rewrite Hpt, Hgen.
  cbn [mbind option_bind]. rewrite Herr.
  eexists _, _. split; [reflexivity |]. unfold well_sized. simpl.
  repeat split; auto.
Qed.

(** Whatever the request and whatever [password_type] held, the
    iteration builds a response in arrays of the declared sizes. *)
Lemma process_request_sized :
  exists r calls',
    process_request R uninitialised password_msg response_msg calls
    = Some (r, calls')
    /\ well_sized r.
Proof.
  destruct (keep_generating (type password_msg) "q") eqn:Hk.
  - apply keep_generating_other in Hk.
    destruct (control_type "nams" (type password_msg)) eqn:Ht.
    + destruct (control_length (Protocol.length password_msg) 6 32) eqn:Hl.
      * destruct (class_used uninitialised (type password_msg)) as [pt |] eqn:Hc.
        -- destruct (process_request_generates pt Hk Ht Hl Hc)
             as (r & c & H & Hw & _). eauto.
        -- destruct (process_request_writes_nothing Hk Ht Hl Hc)
             as (r & H & Hw & _). eauto.
      * destruct (process_request_bad_length Hk Ht Hl) as (r & H & Hw & _). eauto.
    + destruct (process_request_bad_type Hk Ht) as (r & H & Hw & _). eauto.
  - apply keep_generating_sentinel in Hk.
    destruct (process_request_sentinel Hk) as (r & H & Hw & _). eauto.
Qed.

(** With a selector other than NUL the response has the declared shape. *)
Lemma process_request_shape :
  type password_msg <> NUL ->
  exists r calls',
    process_request R uninitialised password_msg response_msg calls
    = Some (r, calls')
    /\ shape r /\ well_sized r.
Proof.
  intros Hnz.
  destruct (keep_generating (type password_msg) "q") eqn:Hk.
  - apply keep_generating_other in Hk.
    destruct (control_type "nams" (type password_msg)) eqn:Ht.
    + destruct (control_length (Protocol.length password_msg) 6 32) eqn:Hl.
      * assert (exists pt, class_used uninitialised (type password_msg) = Some pt)
          as [pt Hc].
        { unfold class_used.
          apply control_type_nams in Ht as [E | [E | [E | [E | E]]]];
            try contradiction; rewrite E; eexists; reflexivity. }
        destruct (process_request_generates pt Hk Ht Hl Hc)
          as (r & c & H & Hw & Hkg & Hre & _ & Hlen & _ & Herr).
        exists r, c. split; [exact H |]. split; [| exact Hw].
        unfold shape. rewrite Hkg, Hre. split; [| exact Herr].
        intros Hempty. rewrite Hempty in Hlen.
        destruct (accepted_length _ Hl) as (_ & Hr & _). simpl in Hlen. lia.
      * destruct (process_request_bad_length Hk Ht Hl)
          as (r & H & Hw & Hkg & Hre & Hpw & Herr).
        exists r, calls. split; [exact H |]. split; [| exact Hw].
        unfold shape. rewrite Hkg, Hre, Hpw, Herr.
        split; [reflexivity | discriminate].
    + destruct (process_request_bad_type Hk Ht)
        as (r & H & Hw & Hkg & Hre & Hpw & Herr).
      exists r, calls. split; [exact H |]. split; [| exact Hw].
      unfold shape. rewrite Hkg, Hre, Hpw, Herr.
      split; [reflexivity | discriminate].
  - apply keep_generating_sentinel in Hk.
    destruct (process_request_sentinel Hk)
      as (r & H & Hw & Hkg & Hre & Hpw & Herr).
    exists r, calls. split; [exact H |]. split; [| exact Hw].
    unfold shape. rewrite Hkg. auto.
Qed.

End Iteration.

(** Every branch stores the value of [keep_generating] in [keep_going],
    and an error is flagged only in the two refusal branches. *)
Lemma process_request_flags R junk req resp calls r calls' :
  process_request R junk req resp calls = Some (r, calls') ->
  keep_going r = keep_generating (type req) "q"
  /\ (request_error r = true -> keep_going r = true).
Proof.
  unfold process_request. cbv zeta.
  destruct (keep_generating (type req) "q") eqn:Hk;
    [destruct (control_type "nams" (type req));
     [destruct (control_length _ _ _) |] |];
    intros H; simplify_option_eq;
    repeat match goal with
           | G : context [let '(_, _) := ?p in _] |- _ => destruct p
           end;
    simplify_option_eq; split; auto; discriminate.
Qed.

Lemma class_letter t :
  In t (chars "nams") ->
  ~ is_sentinel t /\ control_type "nams" t = true
  /\ exists pt, switch_type (tolower t) = Some pt.
Proof.
  intros H. vm_compute in H.
  destruct H as [<- | [<- | [<- | [<- | []]]]];
    (split; [intros [E | E]; discriminate E |]);
    (split; [reflexivity | eexists; reflexivity]).
Qed.

(** ** Claims about one iteration *)

(** C1.  The class check is case-sensitive: for each of the uppercase
    selectors N, A, M and S, whatever the length text,
    [control_type("nams", type)] is false and the response carries the
    invalid-type message, although the switch that follows the check
    lowers the selector before it picks the class. *)
Theorem uppercase_selector_refused
    (R : nat -> Z) (uninitialised : option PasswordType)
    (t : ascii) (len : string)
    (response_msg : PasswordResponse) (calls : nat) :
  In t (chars "NAMS") ->
  well_sized response_msg ->
  control_type "nams" t = false
  /\ In (tolower t) (chars "nams")
  /\ exists r,
       process_request R uninitialised {| type := t; length := len |}
         response_msg calls
       = Some (r, calls)
       /\ keep_going r = true /\ request_error r = true
       /\ text (password r) = EmptyString
       /\ text (error_msg r) = invalid_type_text.
Proof.
  intros Ht Hsz.
  assert (control_type "nams" t = false /\ In (tolower t) (chars "nams")
          /\ ~ is_sentinel t) as (Hc & Hlow & Hs).
  { vm_compute in Ht. destruct Ht as [<- | [<- | [<- | [<- | []]]]];
      (split; [reflexivity |]); (split; [vm_compute; tauto |]);
      intros [E | E]; discriminate E. }
  split; [exact Hc |]. split; [exact Hlow |].
  destruct (process_request_bad_type R uninitialised
              {| type := t; length := len |}
              response_msg calls Hsz Hs Hc) as (r & H & _ & Hrest).
  exists r. split; [exact H | exact Hrest].
Qed.

Lemma blank_response_sized : well_sized blank_response.
Proof. split; reflexivity. Defined.

Lemma uppercase_selector_refused_witness :
  control_type "nams" "N" = false
  /\ In (tolower "N") (chars "nams")
  /\ exists r,
       process_request sample_rand None {| type := "N"; length := "8" |}
         blank_response O = Some (r, O)
       /\ keep_going r = true /\ request_error r = true
       /\ text (password r) = EmptyString
       /\ text (error_msg r) = invalid_type_text.
Proof.
  apply (uppercase_selector_refused sample_rand None "N" "8" blank_response O).
  - vm_compute. tauto.
  - exact blank_response_sized.
Defined.

(** C6.  The NUL selector is not one of the classes, yet
    [strchr("nams", type)] finds it at the terminator of the literal:
    the length check is evaluated, and with a refused length text the
    response carries the invalid-length message, which differs from the
    invalid-type message. *)
Theorem nul_selector_reports_length
    (R : nat -> Z) (uninitialised : option PasswordType)
    (len : string) (response_msg : PasswordResponse)
    (calls : nat) :
  well_sized response_msg ->
  control_length len 6 32 = false ->
  ~ In NUL (chars "nams")
  /\ control_type "nams" NUL = true
  /\ invalid_length_text <> invalid_type_text
  /\ exists r,
       process_request R uninitialised {| type := NUL; length := len |}
         response_msg calls
       = Some (r, calls)
       /\ keep_going r = true /\ request_error r = true
       /\ text (error_msg r) = invalid_length_text.
Proof.
  intros Hsz Hl.
  split; [vm_compute; intros [E | [E | [E | [E | []]]]]; discriminate E |].
  split; [reflexivity |]. split; [discriminate |].
  destruct (process_request_bad_length R uninitialised
              {| type := NUL; length := len |}
              response_msg calls Hsz) as (r & H & _ & Hk & He & _ & Hm).
  - intros [E | E]; discriminate E.
  - reflexivity.
  - exact Hl.
  - exists r. auto.
Qed.

Lemma nul_selector_reports_length_witness :
  ~ In NUL (chars "nams")
  /\ control_type "nams" NUL = true
  /\ invalid_length_text <> invalid_type_text
  /\ exists r,
       process_request sample_rand None {| type := NUL; length := "abc" |}
         blank_response O = Some (r, O)
       /\ keep_going r = true /\ request_error r = true
       /\ text (error_msg r) = invalid_length_text.
Proof.
  apply (nul_selector_reports_length sample_rand None "abc" blank_response O).
  - exact blank_response_sized.
  - reflexivity.
Defined.

(** C7.  [keep_generating(type, 'q')] is false exactly for the
    selectors 'q' and 'Q'; the response of an iteration carries that
    value in [keep_going], so it is false if and only if the selector
    is the sentinel.  For the sentinel the response is always produced;
    a response that flags an error has [keep_going] true, and both
    refusals (type, length) produce such a response. *)
Theorem keep_going_false_iff_sentinel
    (R : nat -> Z) (uninitialised : option PasswordType)
    (password_msg : PasswordRequest)
    (response_msg : PasswordResponse) (calls : nat) :
  well_sized response_msg ->
  (keep_generating (type password_msg) "q" = false
   <-> is_sentinel (type password_msg))
  /\ (is_sentinel (type password_msg) ->
      exists r, process_request R uninitialised password_msg response_msg calls
                = Some (r, calls)
                /\ keep_going r = false)
  /\ (forall r calls',
        process_request R uninitialised password_msg response_msg calls
        = Some (r, calls') ->
        (keep_going r = false <-> is_sentinel (type password_msg))
        /\ (request_error r = true -> keep_going r = true))
  /\ (~ is_sentinel (type password_msg) ->
      control_type "nams" (type password_msg) = false
      \/ control_type "nams" (type password_msg) = true
         /\ control_length (Protocol.length password_msg) 6 32 = false ->
      exists r, process_request R uninitialised password_msg response_msg calls
                = Some (r, calls)
                /\ request_error r = true /\ keep_going r = true).
Proof.
  intros Hsz. split; [apply keep_generating_sentinel |]. split; [| split].
  - intros Hs.
    destruct (process_request_sentinel R uninitialised _ _ calls Hsz Hs)
      as (r & H & _ & Hk & _).
    exists r. auto.
  - intros r calls' H. apply process_request_flags in H as [Hk He].
    split; [| exact He]. rewrite Hk. apply keep_generating_sentinel.
  - intros Hs [Ht | [Ht Hl]].
    + destruct (process_request_bad_type R uninitialised _ _ calls Hsz Hs Ht)
        as (r & H & _ & Hk & He & _).
      exists r. auto.
    + destruct (process_request_bad_length R uninitialised _ _ calls Hsz Hs Ht Hl)
        as (r & H & _ & Hk & He & _).
      exists r. auto.
Qed.

Lemma keep_going_false_iff_sentinel_witness :
  (exists r, process_request sample_rand None {| type := "Q"; length := "12" |}
               blank_response O = Some (r, O) /\ keep_going r = false)
  /\ (exists r, process_request sample_rand None
                  {| type := "s"; length := "abc" |}
                  blank_response O = Some (r, O)
                /\ request_error r = true /\ keep_going r = true).
Proof.
  split.
  - destruct (keep_going_false_iff_sentinel sample_rand None
                {| type := "Q"; length := "12" |} blank_response O
                blank_response_sized) as (_ & H & _).
    apply H. right. reflexivity.
  - destruct (keep_going_false_iff_sentinel sample_rand None
                {| type := "s"; length := "abc" |} blank_response O
                blank_response_sized) as (_ & _ & _ & H).
    apply H.
    + intros [E | E]; discriminate E.
    + right. split; reflexivity.
Defined.

(** C8.  The NUL selector with an accepted length breaks the field
    shape.  No case of the switch matches, so [password_type] keeps
    what it held; when that is no enumerator, [generate_password]
    writes nothing, and after a response with an empty password (a
    refusal, the sentinel) the server sends [keep_going] true with an
    empty password and an empty error message.  For every selector
    other than NUL the response is built and has the shape. *)
Theorem nul_selector_breaks_shape
    (R : nat -> Z) (rand_nonneg : forall k, 0 <= R k)
    (response_msg : PasswordResponse) (calls : nat) :
  well_sized response_msg ->
  (forall len,
     text (password response_msg) = EmptyString ->
     control_length len 6 32 = true ->
     exists r,
       process_request R None {| type := NUL; length := len |}
         response_msg calls = Some (r, calls)
       /\ keep_going r = true /\ request_error r = false
       /\ text (password r) = EmptyString
       /\ text (error_msg r) = EmptyString
       /\ ~ shape r)
  /\ (forall uninitialised password_msg,
        type password_msg <> NUL ->
        exists r calls',
          process_request R uninitialised password_msg response_msg calls
          = Some (r, calls')
          /\ shape r).
Proof.
  intros Hsz. split.
  - intros len Hempty Hl.
    destruct (process_request_writes_nothing R None
                {| type := NUL; length := len |} response_msg calls Hsz)
      as (r & H & _ & Hk & He & Hpw & Herr).
    + intros [E | E]; discriminate E.
    + reflexivity.
    + exact Hl.
    + reflexivity.
    + exists r. rewrite Hpw. repeat split; auto.
      unfold shape. rewrite Hk, He, Hpw. intros [Hne _]. contradiction.
  - intros uninitialised password_msg Hnz.
    destruct (process_request_shape R uninitialised password_msg response_msg
                calls Hsz rand_nonneg Hnz) as (r & c & H & Hsh & _).
    eauto.
Qed.

Lemma nul_selector_breaks_shape_witness :
  (exists r,
     process_request sample_rand None {| type := NUL; length := "8" |}
       blank_response O = Some (r, O)
     /\ keep_going r = true /\ request_error r = false
     /\ text (password r) = EmptyString
     /\ text (error_msg r) = EmptyString
     /\ ~ shape r)
  /\ (exists r calls',
        process_request sample_rand None {| type := "m"; length := "12" |}
          blank_response O = Some (r, calls')
        /\ shape r).
Proof.
  destruct (nul_selector_breaks_shape sample_rand sample_rand_nonneg
              blank_response O blank_response_sized) as [Hbad Hgood].
  split.
  - apply Hbad; reflexivity.
  - apply Hgood. discriminate.
Defined.

(** C10.  A length text of digits is taken by value: for each of the
    selectors n, a, m, s and every text of digits whose value lies in
    [6, 32], leading zeros or not, [control_length] returns true and
    the response carries a password whose length is that value. *)
Theorem length_text_by_value
    (R : nat -> Z) (rand_nonneg : forall k, 0 <= R k)
    (uninitialised : option PasswordType)
    (t : ascii) (len : string) (response_msg : PasswordResponse)
    (calls : nat) :
  In t (chars "nams") ->
  digits_only len ->
  6 <= decimal len <= 32 ->
  well_sized response_msg ->
  control_length len 6 32 = true
  /\ exists r calls',
       process_request R uninitialised {| type := t; length := len |}
         response_msg calls
       = Some (r, calls')
       /\ keep_going r = true /\ request_error r = false
       /\ strlen (password r) = Some (Z.to_nat (decimal len))
       /\ String.length (text (password r)) = Z.to_nat (decimal len).
Proof.
  intros Ht Hd Hr Hsz.
  assert (control_length len 6 32 = true) as Hl
    by (apply control_length_in_range; [auto | auto | unfold INT_MAX; lia]).
  split; [exact Hl |].
  destruct (class_letter t Ht) as (Hs & Hc & pt & Hpt).
  destruct (process_request_generates R uninitialised
              {| type := t; length := len |}
              response_msg calls Hsz rand_nonneg pt Hs Hc Hl)
    as (r & calls' & H & _ & Hk & He & Hstr & Hlen & _).
  { unfold class_used. simpl. rewrite Hpt. reflexivity. }
  simpl in Hstr, Hlen.
  assert (atoi len = decimal len) as Hval.
  { rewrite atoi_digits by now apply all_digits_digits_only.
    apply int_value_small; [exact Hd | unfold INT_MAX; lia]. }
  rewrite Hval in Hstr, Hlen.
  exists r, calls'. auto.
Qed.

Lemma length_text_by_value_witness :
  String.length "008" = 3%nat
  /\ decimal "008" = 8
  /\ control_length "008" 6 32 = true
  /\ exists r calls',
       process_request sample_rand None {| type := "n"; length := "008" |}
         blank_response O = Some (r, calls')
       /\ keep_going r = true /\ request_error r = false
       /\ strlen (password r) = Some 8%nat
       /\ String.length (text (password r)) = 8%nat.
Proof.
  split; [reflexivity |]. split; [reflexivity |].
  apply (length_text_by_value sample_rand sample_rand_nonneg None "n" "008"
           blank_response O).
  - vm_compute. tauto.
  - exact digits_only_008.
  - vm_compute. split; discriminate.
  - exact blank_response_sized.
Defined.

(** ** Transport faults and the accept loop *)

Lemma session_no_accept R script :
  forall resp calls, accepted (fst (session R script resp calls)) = O.
Proof.
  induction script as [| rd script IH]; intros resp calls; simpl; [reflexivity |].
  destruct (Server.recv_ret rd <=? 0); [reflexivity |].
  destruct (process_request R (leftover rd) (Server.recv_buf rd) resp calls) as [[r1 c1] |];
    [| reflexivity].
  destruct (negb (Server.send_ret rd =? sizeof_PasswordResponse)); [reflexivity |].
  destruct (keep_going r1); [| reflexivity].
  specialize (IH r1 c1). destruct (session R script r1 c1) as [evs e].
  exact IH.
Qed.

(** A fault closes the client socket and makes [main] return -1. *)
Lemma transport_fault_session R script resp calls :
  transport_fault R script resp calls ->
  exists evs, session R script resp calls = (evs, Failed (-1))
              /\ last evs = Some ClientClosed.
Proof.
  induction 1 as [r script resp calls Hrecv
                 | r script resp calls resp' calls' Hrecv Hp Hsend
                 | r script resp calls resp' calls' Hrecv Hp Hsend Hk _ IH];
    simpl.
  - replace (Server.recv_ret r <=? 0) with true by (symmetry; lia).
    exists [ClientClosed]. auto.
  - replace (Server.recv_ret r <=? 0) with false by (symmetry; lia).
    rewrite Hp.
    replace (Server.send_ret r =? sizeof_PasswordResponse) with false
      by (symmetry; lia).
    exists [ClientClosed]. auto.
  - replace (Server.recv_ret r <=? 0) with false by (symmetry; lia).
    rewrite Hp.
    replace (Server.send_ret r =? sizeof_PasswordResponse) with true
      by (symmetry; lia).
    simpl. rewrite Hk. destruct IH as (evs & -> & Hlast).
    exists (Responded resp' :: evs). split; [reflexivity |].
    destruct evs; [discriminate Hlast | exact Hlast].
Qed.

(** Once [main] has returned, what else waits in the queue is never looked at. *)
Lemma accept_loop_exited R queue :
  forall resp calls evs code more,
    accept_loop R queue resp calls = (evs, Exited code) ->
    accept_loop R (queue ++ more) resp calls = (evs, Exited code).
Proof.
  induction queue as [| c queue IH]; intros resp calls evs code more; simpl;
    [discriminate |].
  destruct (accept_ret c <? 0); [auto |].
  destruct (negb (menu_send_ret c =? sizeof_MenuMessage)); [auto |].
  destruct (session R (rounds c) resp calls) as [evs1 e].
  destruct e as [resp' calls' | code' | |]; auto.
  destruct (accept_loop R queue resp' calls') as [evs' st] eqn:Ha.
  intros [= <- ->]. now rewrite (IH resp' calls' evs' code more Ha).
Qed.

(** C2, amended.  A transport fault on a client connection (a [recv]
    that returns zero or an error, or a [send] of a response that
    transfers another number of bytes than the record has) ends the
    whole server: the client socket is closed, [main] returns -1, and
    no connection that waits behind it is accepted. *)
Theorem transport_fault_exits_server
    (R : nat -> Z) (c : connection) (queue : list connection)
    (response_msg : PasswordResponse) (calls : nat) :
  0 <= accept_ret c ->
  menu_send_ret c = sizeof_MenuMessage ->
  transport_fault R (rounds c) response_msg calls ->
  exists evs,
    accept_loop R (c :: queue) response_msg calls
    = (Accepted :: MenuSent :: evs, Exited (-1))
    /\ last evs = Some ClientClosed
    /\ accepted (Accepted :: MenuSent :: evs) = 1%nat
    /\ accept_loop R (c :: queue) response_msg calls
       = accept_loop R [c] response_msg calls.
Proof.
  intros Hacc Hmenu Hfault.
  destruct (transport_fault_session R _ _ _ Hfault) as (evs & Hs & Hlast).
  assert (accept_loop R [c] response_msg calls
          = (Accepted :: MenuSent :: evs, Exited (-1))) as Hone.
  { simpl. replace (accept_ret c <? 0) with false by (symmetry; lia).
    rewrite Hmenu, Z.eqb_refl, Hs. reflexivity. }
  exists evs. split; [| split; [| split]].
  - apply (accept_loop_exited R [c] _ _ _ _ queue Hone).
  - exact Hlast.
  - pose proof (session_no_accept R (rounds c) response_msg calls) as Hn.
    rewrite Hs in Hn. unfold accepted in *. simpl in *. now rewrite Hn.
  - rewrite Hone. apply (accept_loop_exited R [c] _ _ _ _ queue Hone).
Qed.

Lemma dropped_connection_fault :
  transport_fault sample_rand (rounds dropped_connection) blank_response O.
Proof.
  eapply fault_later.
  - simpl. lia.
  - vm_compute. reflexivity.
  - reflexivity.
  - reflexivity.
  - apply fault_recv. simpl. lia.
Defined.

Lemma transport_fault_exits_server_witness :
  exists evs,
    accept_loop sample_rand [dropped_connection; quitting_connection]
      blank_response O
    = (Accepted :: MenuSent :: evs, Exited (-1))
    /\ last evs = Some ClientClosed
    /\ accepted (Accepted :: MenuSent :: evs) = 1%nat
    /\ accept_loop sample_rand [dropped_connection; quitting_connection]
         blank_response O
       = accept_loop sample_rand [dropped_connection] blank_response O.
Proof.
  apply (transport_fault_exits_server sample_rand dropped_connection
           [quitting_connection] blank_response O).
  - simpl. lia.
  - reflexivity.
  - exact dropped_connection_fault.
Defined.

(** C2 as stated fails: after the peer of the first connection closes,
    the run ends with exit code -1 and one accepted connection; the
    second connection, which the server would serve on its own, is
    never accepted. *)
Lemma fault_stops_accepting :
  transport_fault sample_rand (rounds dropped_connection) blank_response O
  /\ snd (accept_loop sample_rand [dropped_connection; quitting_connection]
            blank_response O) = Exited (-1)
  /\ accepted (fst (accept_loop sample_rand
                      [dropped_connection; quitting_connection]
                      blank_response O)) <> 2%nat
  /\ accepted (fst (accept_loop sample_rand [quitting_connection]
                      blank_response O)) = 1%nat.
Proof.
  split; [exact dropped_connection_fault |].
  split; [vm_compute; reflexivity |].
  split; [vm_compute; discriminate | vm_compute; reflexivity].
Qed.

(** ** The input line of the client *)

Lemma sscanf_count input password_msg :
  let arguments := fst (Client.sscanf input password_msg) in
  arguments = Client.EOF \/ arguments = 1 \/ arguments = 2 \/ arguments = 3.
Proof.
  unfold Client.sscanf.
  destruct (skip_space (c_str input)) as [| c rest]; simpl; [auto |].
  destruct (Client.token (skip_space rest)) as [[| x t1] rest1]; simpl; [auto |].
  destruct (Client.token (skip_space rest1)) as [[| y t2] rest2]; simpl; auto.
Qed.

Lemma sscanf_single_character c password_msg :
  isspace c = false -> c <> NUL ->
  Client.sscanf (String c newline) password_msg
  = (1, {| type := c; length := Protocol.length password_msg |}).
Proof.
  intros Hsp Hnz. unfold Client.sscanf. simpl.
  rewrite (eqb_NUL_false _ Hnz). simpl. rewrite Hsp. reflexivity.
Qed.

(** C9.  [sscanf] returns EOF, 1, 2 or 3.  A count that is neither 1
    nor 2 sends nothing and leaves the loop running ([keep_going] is
    set, the loop condition holds).  A count of 1, which a line with a
    single character gives, replaces the length by "8" and sends the
    request; a count of 2 sends the request as parsed. *)
Theorem argument_count_dispatch
    (input : string) (password_msg : PasswordRequest)
    (response_msg : PasswordResponse) (net : Client.exchange) :
  let arguments := fst (Client.sscanf input password_msg) in
  let parsed := snd (Client.sscanf input password_msg) in
  (arguments = Client.EOF \/ arguments = 1 \/ arguments = 2 \/ arguments = 3)
  /\ (arguments <> 1 -> arguments <> 2 ->
      exists r, Client.iteration input password_msg response_msg net
                = ([], Client.Again parsed r)
                /\ keep_going r = true)
  /\ (arguments = 1 -> Client.send_ret net = sizeof_PasswordRequest ->
      fst (Client.iteration input password_msg response_msg net)
      = [ {| type := type parsed; length := "8" |} ])
  /\ (arguments = 2 -> Client.send_ret net = sizeof_PasswordRequest ->
      fst (Client.iteration input password_msg response_msg net) = [parsed])
  /\ (forall c, isspace c = false -> c <> NUL ->
      fst (Client.sscanf (String c newline) password_msg) = 1).
Proof.
  cbv zeta. split; [apply sscanf_count |].
  unfold Client.iteration.
  destruct (Client.sscanf input password_msg) as [arguments parsed]. simpl.
  split; [| split; [| split]].
  - intros H1 H2.
    replace (arguments =? 1) with false by (symmetry; lia).
    replace (arguments =? 2) with false by (symmetry; lia).
    simpl. eexists. split; reflexivity.
  - intros -> Hsend. simpl. rewrite Hsend, Z.eqb_refl. simpl.
    destruct (Client.recv_ret net <=? 0); [reflexivity |].
    destruct (keep_going (Client.recv_buf net)); reflexivity.
  - intros -> Hsend. simpl. rewrite Hsend, Z.eqb_refl. simpl.
    destruct (Client.recv_ret net <=? 0); [reflexivity |].
    destruct (keep_going (Client.recv_buf net)); reflexivity.
  - intros c Hsp Hnz. now rewrite sscanf_single_character.
Qed.

Lemma argument_count_dispatch_witness :
  (exists r, Client.iteration "n 8 9" {| type := NUL; length := EmptyString |}
               blank_response
               {| Client.send_ret := 1025; Client.recv_ret := 85;
                  Client.recv_buf := blank_response |}
             = ([], Client.Again {| type := "n"; length := "8" |} r)
             /\ keep_going r = true)
  /\ fst (Client.iteration (String "s" newline) {| type := NUL; length := EmptyString |}
            blank_response
            {| Client.send_ret := 1025; Client.recv_ret := 85;
               Client.recv_buf := blank_response |})
     = [ {| type := "s"; length := "8" |} ].
Proof.
  split.
  - destruct (argument_count_dispatch "n 8 9" {| type := NUL; length := EmptyString |}
                blank_response
                {| Client.send_ret := 1025; Client.recv_ret := 85;
                   Client.recv_buf := blank_response |}) as (_ & H & _).
    apply H; vm_compute; discriminate.
  - destruct (argument_count_dispatch (String "s" newline)
                {| type := NUL; length := EmptyString |} blank_response
                {| Client.send_ret := 1025; Client.recv_ret := 85;
                   Client.recv_buf := blank_response |}) as (_ & _ & H & _).
    apply H; reflexivity.
Defined.

(** ** More on password generation *)

Lemma generate_password_next R password t len calls :
  generate_password R password t len calls
  = generate_with (next_char R t) password len calls.
Proof. destruct t; reflexivity. Qed.

Lemma next_char_draws R (rand_nonneg : forall k, 0 <= R k) t :
  draws_from (next_char R t) (alphabet t).
Proof.
  destruct t; simpl;
    auto using numeric_char_draws, alpha_char_draws, mixed_char_draws,
               secure_char_draws.
Qed.

Lemma next_char_steps R t : steps_by (next_char R t) (stride t).
Proof.
  intros k c k'. destruct t; simpl.
  - unfold numeric_char, rand. intros [= _ <-]. lia.
  - unfold alpha_char, rand. intros [= _ <-]. lia.
  - unfold mixed_char, rand.
    destruct (negb (Z.rem (R k) 2 =? 0)); intros [= _ <-]; lia.
  - intros H. apply secure_char_inv in H as [-> _]. lia.
Qed.

Lemma store_inv a i c a' :
  store a i c = Some a' ->
  0 <= i < Z.of_nat (List.length a) /\ a' = <[Z.to_nat i := c]> a.
Proof.
  unfold store.
  destruct (0 <=? i) eqn:H0; [| discriminate].
  destruct (i <? Z.of_nat (List.length a)) eqn:H1; [| discriminate].
  simpl. intros [= <-]. split; [lia | reflexivity].
Qed.

(** What a completed loop has done, whatever [rand()] returned. *)
Lemma fill_inv next n (Hsteps : steps_by next n) todo :
  forall i password calls p calls',
    0 <= i ->
    fill next todo i password calls = Some (p, calls') ->
    List.length p = List.length password
    /\ calls' = (calls + todo * n)%nat
    /\ (forall j, (j < Z.to_nat i)%nat -> p !! j = password !! j)
    /\ (forall j, (Z.to_nat i + todo <= j)%nat -> p !! j = password !! j).
Proof.
  induction todo as [| todo IH]; intros i password calls p calls' Hi; cbn [fill].
  - intros [= <- <-]. repeat split; auto; lia.
  - destruct (next calls) as [[c calls1] |] eqn:Hn; [| discriminate].
    cbn. destruct (store password i c) as [p1 |] eqn:Hst; [| discriminate].
    cbn. intros Hfill.
    apply store_inv in Hst as [Hb ->].
    apply Hsteps in Hn as ->.
    apply IH in Hfill as (Hl & Hc & Hlow & Hhigh); [| lia].
    rewrite length_insert in Hl.
    replace (Z.to_nat (i + 1)) with (S (Z.to_nat i)) in * by lia.
    repeat split.
    + exact Hl.
    + lia.
    + intros j Hj. rewrite Hlow by lia. apply list_lookup_insert_ne. lia.
    + intros j Hj. rewrite Hhigh by lia. apply list_lookup_insert_ne. lia.
Qed.

Lemma generate_with_inv next n (Hsteps : steps_by next n) password len calls p calls' :
  generate_with next password len calls = Some (p, calls') ->
  0 <= len < Z.of_nat (List.length password)
  /\ List.length p = List.length password
  /\ calls' = (calls + Z.to_nat len * n)%nat
  /\ p !! Z.to_nat len = Some NUL
  /\ (forall j, (Z.to_nat len < j)%nat -> p !! j = password !! j).
Proof.
  unfold generate_with.
  destruct (fill next (Z.to_nat len) 0 password calls) as [[p1 c1] |] eqn:Hfill;
    [| discriminate].
  cbn. destruct (store p1 len NUL) as [p2 |] eqn:Hst; [| discriminate].
  cbn. intros [= <- <-].
  apply (fill_inv next n Hsteps) in Hfill as (Hl & Hc & _ & Hhigh); [| lia].
  apply store_inv in Hst as [Hb ->]. rewrite Hl in Hb.
  repeat split; try lia.
  - rewrite length_insert. exact Hl.
  - apply list_lookup_insert_eq. lia.
  - intros j Hj. rewrite list_lookup_insert_ne by lia. apply Hhigh. simpl. lia.
Qed.

(** X1.  With the non-negative values [rand()] returns,
    [generate_password] stays inside the [password] array exactly when
    the length is at least 0 and smaller than the capacity of the
    array: a negative length, or one that leaves no room for the
    terminator, writes outside the array. *)
Theorem generate_password_in_bounds
    (R : nat -> Z) (rand_nonneg : forall k, 0 <= R k)
    (password : list ascii) (t : PasswordType) (len : Z) (calls : nat) :
  is_Some (generate_password R password t len calls)
  <-> 0 <= len < Z.of_nat (List.length password).
Proof.
  rewrite generate_password_next. split.
  - intros [[p calls'] H].
    now apply (generate_with_inv _ _ (next_char_steps R t)) in H as [Hb _].
  - intros Hb.
    destruct (generate_with_text (next_char R t) (alphabet t)
                (next_char_draws R rand_nonneg t) (alphabet_not_NUL t)
                password len calls Hb) as (p & calls' & H & _).
    rewrite H. eauto.
Qed.

(** X2.  A call of [generate_password] that stays inside the array
    keeps the size of the array, puts the terminator at index [length],
    leaves every cell behind the terminator as it was, and makes one
    call of [rand()] per character, two for the MIXED class. *)
Theorem generate_password_footprint
    (R : nat -> Z) (password : list ascii) (t : PasswordType) (len : Z)
    (calls : nat) (p : list ascii) (calls' : nat) :
  generate_password R password t len calls = Some (p, calls') ->
  List.length p = List.length password
  /\ p !! Z.to_nat len = Some NUL
  /\ (forall j, (Z.to_nat len < j)%nat -> p !! j = password !! j)
  /\ calls' = (calls + Z.to_nat len * stride t)%nat.
Proof.
  rewrite generate_password_next. intros H.
  apply (generate_with_inv _ _ (next_char_steps R t)) in H
    as (_ & Hl & Hc & Hnul & Htail).
  auto.
Qed.

Lemma generate_password_footprint_witness :
  exists p,
    generate_password sample_rand (repeat "x"%char 33) MIXED 6 O
    = Some (p, 12%nat)
    /\ List.length p = 33%nat
    /\ p !! 6%nat = Some NUL
    /\ (forall j, (6 < j)%nat -> p !! j = repeat "x"%char 33 !! j).
Proof.
  eexists. split; [vm_compute; reflexivity |].
  destruct (generate_password_footprint sample_rand (repeat "x"%char 33)
              MIXED 6 O _ 12%nat ltac:(vm_compute; reflexivity))
    as (Hl & Hn & Ht & _).
  split; [exact Hl |]. split; [exact Hn | exact Ht].
Defined.

Lemma generate_password_in_bounds_witness :
  is_Some (generate_password sample_rand (repeat NUL 33) SECURE 32 O)
  /\ ~ is_Some (generate_password sample_rand (repeat NUL 33) SECURE 33 O)
  /\ ~ is_Some (generate_password sample_rand (repeat NUL 33) SECURE (-1) O).
Proof.
  split; [| split].
  - apply (generate_password_in_bounds sample_rand sample_rand_nonneg).
    simpl. lia.
  - intros H.
    apply (generate_password_in_bounds sample_rand sample_rand_nonneg) in H.
    simpl in H. lia.
  - intros H.
    apply (generate_password_in_bounds sample_rand sample_rand_nonneg) in H.
    lia.
Defined.

(** The loop spells [w] when the draws come out as its characters. *)
Lemma fill_word next n (w : list ascii) :
  forall i password calls,
    (forall j c, w !! j = Some c ->
       next (calls + j * n)%nat = Some (c, (calls + S j * n)%nat)) ->
    0 <= i ->
    i + Z.of_nat (List.length w) <= Z.of_nat (List.length password) ->
    fill next (List.length w) i password calls
    = Some (take (Z.to_nat i) password ++ w
              ++ drop (Z.to_nat i + List.length w) password,
            (calls + List.length w * n)%nat).
Proof.
  induction w as [| c w IH]; intros i password calls Hnext Hi Hfit.
  - simpl. rewrite Nat.add_0_r, Nat.add_0_r, take_drop. reflexivity.
  - cbn [fill List.length].
    pose proof (Hnext O c eq_refl) as H0.
    replace (calls + 0 * n)%nat with calls in H0 by lia.
    rewrite H0. cbn [mbind option_bind].
    cbn [List.length] in Hfit.
    rewrite store_in_bounds by lia. cbn [mbind option_bind].
    rewrite (IH (i + 1) (<[Z.to_nat i := c]> password) (calls + 1 * n)%nat).
    + replace (Z.to_nat (i + 1)) with (S (Z.to_nat i)) by lia.
      rewrite (take_S_r _ _ c) by (apply list_lookup_insert_eq; lia).
      rewrite take_insert_ge by lia.
      rewrite drop_insert_lt by lia.
      rewrite <- app_assoc. simpl.
      replace (S (Z.to_nat i + List.length w))
        with (Z.to_nat i + S (List.length w))%nat by lia.
      replace (calls + (n + 0) + List.length w * n)%nat
        with (calls + (n + List.length w * n))%nat by lia.
      reflexivity.
    + intros j x Hx. specialize (Hnext (S j) x Hx).
      replace (calls + 1 * n + j * n)%nat with (calls + S j * n)%nat by lia.
      replace (calls + 1 * n + S j * n)%nat with (calls + S (S j) * n)%nat by lia.
      exact Hnext.
    + lia.
    + rewrite length_insert. lia.
Qed.

Lemma text_word (w : list ascii) rest :
  (forall c, In c w -> c <> NUL) ->
  text (w ++ NUL :: rest) = string_of_list_ascii w.
Proof.
  induction w as [| c w IH]; intros Hw; simpl; [reflexivity |].
  rewrite (eqb_NUL_false c) by (apply Hw; now left).
  rewrite IH; [reflexivity |]. intros x Hx. apply Hw. now right.
Qed.

Lemma generate_with_word next n (w : list ascii) password calls :
  (forall j c, w !! j = Some c ->
     next (calls + j * n)%nat = Some (c, (calls + S j * n)%nat)) ->
  (forall c, In c w -> c <> NUL) ->
  (List.length w < List.length password)%nat ->
  exists p,
    generate_with next password (Z.of_nat (List.length w)) calls
    = Some (p, (calls + List.length w * n)%nat)
    /\ text p = string_of_list_ascii w.
Proof.
  intros Hnext Hw Hfit. unfold generate_with.
  rewrite Nat2Z.id, (fill_word next n w 0 password calls Hnext) by lia.
  cbn [mbind option_bind]. simpl take. simpl app.
  rewrite store_in_bounds.
  2:{ rewrite length_app, length_drop. lia. }
  cbn [mbind option_bind]. eexists. split; [reflexivity |].
  rewrite Nat2Z.id, insert_app_r_alt, Nat.sub_diag by lia.
  destruct (drop (List.length w) password) as [| x rest] eqn:Hd.
  - apply (f_equal List.length) in Hd. rewrite length_drop in Hd.
    simpl in Hd. lia.
  - simpl. now apply text_word.
Qed.

Lemma digit_back c :
  In c (chars digits) ->
  char_of_int (char_code "0" + Z.rem (char_code c - char_code "0") 10) = c.
Proof.
  intros H. vm_compute in H.
  repeat (destruct H as [<- | H]; [reflexivity |]). contradiction.
Qed.

Lemma letter_back c :
  In c (chars lowercase) ->
  char_of_int (char_code "a" + Z.rem (char_code c - char_code "a") 26) = c
  /\ isdigit c = false /\ 0 <= char_code c - char_code "a".
Proof.
  intros H. vm_compute in H.
  repeat (destruct H as [<- | H];
          [split; [reflexivity | split; [reflexivity | vm_compute; discriminate]] |]).
  contradiction.
Qed.

Lemma index_of_lookup c (l : list ascii) :
  In c l -> l !! index_of c l = Some c.
Proof.
  induction l as [| x l IH]; simpl; [intros [] |].
  destruct (Ascii.eqb_spec x c) as [-> | Hne]; [reflexivity |].
  intros [-> | H]; [contradiction | now apply IH].
Qed.

Lemma rand_for_nonneg t w k :
  (forall c, In c w -> In c (alphabet t)) -> 0 <= rand_for t w k.
Proof.
  intros Hw.
  assert (forall i d, In d (alphabet t) -> In (nth i w d) (alphabet t)) as Hnth.
  { intros i d Hd. destruct (nth_in_or_default i w d) as [H | ->]; auto. }
  destruct t; unfold rand_for.
  - specialize (Hnth k "0"%char ltac:(vm_compute; tauto)).
    apply isdigit_digits, isdigit_plain in Hnth. lia.
  - specialize (Hnth k "a"%char ltac:(vm_compute; tauto)).
    apply letter_back in Hnth. lia.
  - specialize (Hnth (k / 2)%nat "a"%char ltac:(vm_compute; tauto)).
    cbv zeta. destruct (Nat.even k).
    + destruct (isdigit _); lia.
    + destruct (isdigit (nth (k / 2) w "a"%char)) eqn:Hd.
      * apply isdigit_plain in Hd. lia.
      * apply in_app_iff in Hnth as [Hl | Hdg].
        -- apply letter_back in Hl. lia.
        -- apply isdigit_digits in Hdg. congruence.
  - lia.
Qed.

Lemma rand_for_spells t w :
  (forall c, In c w -> In c (alphabet t)) ->
  forall j c, w !! j = Some c ->
    next_char (rand_for t w) t (0 + j * stride t)%nat
    = Some (c, (0 + S j * stride t)%nat).
Proof.
  intros Hw j c Hj.
  assert (In c (alphabet t)) as Hc
    by (apply Hw, list_elem_of_In, list_elem_of_lookup; eauto).
  destruct t; cbn [stride next_char].
  - replace (0 + j * 1)%nat with j by lia.
    replace (0 + S j * 1)%nat with (S j) by lia.
    unfold numeric_char, rand, rand_for. cbv beta iota zeta.
    rewrite (nth_lookup_Some _ _ _ _ Hj), (digit_back _ Hc). reflexivity.
  - replace (0 + j * 1)%nat with j by lia.
    replace (0 + S j * 1)%nat with (S j) by lia.
    unfold alpha_char, rand, rand_for. cbv beta iota zeta.
    rewrite (nth_lookup_Some _ _ _ _ Hj).
    apply letter_back in Hc as [-> _]. reflexivity.
  - replace (0 + j * 2)%nat with (j * 2)%nat by lia.
    replace (0 + S j * 2)%nat with (S (S (j * 2))) by lia.
    assert (Nat.even (j * 2) = true) as He
      by (rewrite Nat.even_mul; apply orb_true_r).
    assert (Nat.even (S (j * 2)) = false) as Ho
      by (rewrite Nat.even_succ, <- Nat.negb_even, He; reflexivity).
    assert ((j * 2) / 2 = j)%nat as Hq by (apply Nat.div_mul; lia).
    assert (S (j * 2) / 2 = j)%nat as Hq'
      by (symmetry; apply (Nat.div_unique _ 2 j 1); lia).
    unfold mixed_char, rand, rand_for. cbv beta iota zeta.
    rewrite He, Ho, Hq, Hq', (nth_lookup_Some _ _ _ _ Hj).
    destruct (isdigit c) eqn:Hd.
    + apply isdigit_digits in Hd. simpl negb. cbv iota.
      rewrite (digit_back _ Hd). reflexivity.
    + apply in_app_iff in Hc as [Hl | Hdg];
        [| apply isdigit_digits in Hdg; congruence].
      simpl negb. cbv iota. apply letter_back in Hl as [-> _]. reflexivity.
  - replace (0 + j * 1)%nat with j by lia.
    replace (0 + S j * 1)%nat with (S j) by lia.
    apply charset_alphabet in Hc.
    pose proof (index_of_lookup _ _ Hc) as Hi.
    pose proof (lookup_lt_Some _ _ _ Hi) as Hlt.
    change (List.length (chars charset)) with 72%nat in Hlt.
    unfold secure_char, rand, rand_for. cbv beta iota zeta.
    change (sizeof_charset - 1) with 72.
    rewrite (nth_lookup_Some _ _ _ _ Hj), Z.rem_small by lia.
    replace (0 <=? Z.of_nat (index_of c (chars charset))) with true
      by (symmetry; lia).
    rewrite Nat2Z.id. change (list_ascii_of_string charset) with (chars charset).
    rewrite Hi. reflexivity.
Qed.

(** X3.  Every word over the alphabet of a class that fits the array
    is a password the class can produce: there is a sequence of
    non-negative [rand()] values under which [generate_password]
    leaves exactly that word. *)
Theorem every_word_is_generated
    (t : PasswordType) (w : list ascii) (password : list ascii) :
  (forall c, In c w -> In c (alphabet t)) ->
  (List.length w < List.length password)%nat ->
  (forall k, 0 <= rand_for t w k)
  /\ exists p calls',
       generate_password (rand_for t w) password t
         (Z.of_nat (List.length w)) O = Some (p, calls')
       /\ text p = string_of_list_ascii w.
Proof.
  intros Hw Hfit. split; [intros k; now apply rand_for_nonneg |].
  rewrite generate_password_next.
  destruct (generate_with_word (next_char (rand_for t w) t) (stride t) w
              password O) as (p & Hp & Htext).
  - now apply rand_for_spells.
  - intros c Hc. apply (alphabet_not_NUL t). now apply Hw.
  - exact Hfit.
  - eauto.
Qed.

Lemma every_word_is_generated_witness :
  exists p calls',
    generate_password (rand_for SECURE (chars "Zq9)x!")) (repeat NUL 33)
      SECURE 6 O = Some (p, calls')
    /\ text p = "Zq9)x!"%string.
Proof.
  apply (every_word_is_generated SECURE (chars "Zq9)x!") (repeat NUL 33)).
  - intros c Hc. apply mem_In. vm_compute in Hc.
    repeat (destruct Hc as [<- | Hc]; [reflexivity |]). contradiction.
  - simpl. lia.
Defined.

(** ** More on the control functions *)

Lemma strchr_found s c :
  is_Some (strchr s c) <-> c = NUL \/ In c (chars (c_str s)).
Proof.
  induction s as [| x s IH]; simpl.
  - destruct (Ascii.eqb_spec c NUL) as [-> | Hc].
    + split; [auto | intros _; eauto].
    + split; [intros [? [=]] | intros [? | []]; contradiction].
  - destruct (Ascii.eqb_spec x c) as [-> | Hxc].
    + split; [| intros _; eauto]. intros _.
      destruct (Ascii.eqb_spec c NUL) as [-> | Hc]; [now left |].
      right. now left.
    + destruct (Ascii.eqb_spec x NUL) as [-> | Hx].
      * split; [intros [? [=]] |]. intros [-> | []]. contradiction.
      * rewrite fmap_is_Some, IH. simpl. split.
        -- intros [? | ?]; auto.
        -- intros [? | [? | ?]]; auto. contradiction.
Qed.

(** X4.  Whatever the list of allowed types, [control_type] accepts a
    type exactly when it is one of the characters of the list or the
    NUL character: [strchr] matches NUL at the terminator of every
    list, the empty one included. *)
Theorem control_type_accepts (allowed_type : string) (t : ascii) :
  control_type allowed_type t = true
  <-> t = NUL \/ In t (chars (c_str allowed_type)).
Proof.
  rewrite <- strchr_found. unfold control_type.
  destruct (strchr allowed_type t); split; eauto; try discriminate.
  intros [? [=]].
Qed.

Lemma control_length_first_char c rest min max :
  isdigit c = false -> c <> NUL ->
  control_length (String c rest) min max = false.
Proof.
  intros Hd Hc. unfold control_length. simpl.
  rewrite (eqb_NUL_false _ Hc), Hd. reflexivity.
Qed.

(** X5.  Whatever the bounds, [control_length] returns true exactly on
    the texts of digits whose value, as [atoi] reads it, lies within
    the bounds: the decimal value cut to a [long], saturating, and then
    to its low 32 bits.  Up to INT_MAX that is the decimal value; above
    it wraps round, so "4294967304" counts as 8.  The empty text counts
    as 0 and is accepted exactly when 0 lies within the bounds.  A sign
    or a blank in front of the digits is refused, although [atoi] would
    read the number. *)
Theorem control_length_bounds (min_length max_length : Z) :
  (forall s, control_length s min_length max_length = true
             <-> digits_only s /\ min_length <= int_value s <= max_length)
  /\ (forall s, digits_only s -> decimal s <= INT_MAX ->
        int_value s = decimal s)
  /\ int_value "4294967304" = 8
  /\ control_length EmptyString min_length max_length
     = ((min_length <=? 0) && (0 <=? max_length))
  /\ (forall c rest, c = "+"%char \/ c = "-"%char \/ c = " "%char ->
        control_length (String c rest) min_length max_length = false)
  /\ atoi "+8" = 8 /\ atoi " 8" = 8.
Proof.
  split; [| split; [| split; [| split; [| split]]]].
  - intros s. apply control_length_accepted.
  - intros s. apply int_value_small.
  - reflexivity.
  - reflexivity.
  - intros c rest [-> | [-> | ->]];
      apply control_length_first_char; (reflexivity || discriminate).
  - split; reflexivity.
Qed.

Lemma control_length_bounds_witness :
  control_length EmptyString 0 32 = true
  /\ control_length "+8" 0 32 = false
  /\ control_length "4294967304" 6 32 = true
  /\ int_value "008" = decimal "008".
Proof.
  destruct (control_length_bounds 0 32) as (_ & Hsmall & _ & Hempty & Hsign & _).
  destruct (control_length_bounds 6 32) as (Hiff & _ & Hwrap & _).
  split; [exact Hempty |]. split; [apply Hsign; now left |]. split.
  - apply Hiff. rewrite Hwrap. split; [| lia].
    intros c Hc. apply isdigit_digits. vm_compute in Hc.
    repeat (destruct Hc as [<- | Hc]; [reflexivity |]). contradiction.
  - apply Hsmall; [exact digits_only_008 | vm_compute; discriminate].
Defined.

(** ** More on one iteration of the server *)

Lemma strcpy_inv dst src d :
  strcpy dst src = Some d ->
  d = chars (c_str src) ++ NUL :: drop (S (String.length (c_str src))) dst.
Proof.
  unfold strcpy. fold (chars (c_str src)).
  destruct (_ <=? _)%nat; [| discriminate]. intros [= <-].
  rewrite length_app, length_chars, <- app_assoc. simpl.
  do 3 f_equal. lia.
Qed.

(** The ways an iteration builds its response. *)
Lemma process_request_inv R junk req resp calls r calls' :
  process_request R junk req resp calls = Some (r, calls') ->
  (is_sentinel (type req) /\ calls' = calls
   /\ r = {| keep_going := false;
             password := NUL :: drop 1 (password resp);
             request_error := false;
             error_msg := NUL :: drop 1 (error_msg resp) |})
  \/ (~ is_sentinel (type req) /\ calls' = calls
      /\ control_type "nams" (type req) = false
      /\ r = {| keep_going := true;
                password := NUL :: drop 1 (password resp);
                request_error := true;
                error_msg := chars invalid_type_text
                               ++ NUL :: drop 33 (error_msg resp) |})
  \/ (~ is_sentinel (type req) /\ calls' = calls
      /\ control_type "nams" (type req) = true
      /\ control_length (Protocol.length req) 6 32 = false
      /\ r = {| keep_going := true;
                password := NUL :: drop 1 (password resp);
                request_error := true;
                error_msg := chars invalid_length_text
                               ++ NUL :: drop 43 (error_msg resp) |})
  \/ (~ is_sentinel (type req)
      /\ control_type "nams" (type req) = true
      /\ control_length (Protocol.length req) 6 32 = true
      /\ exists p,
           r = {| keep_going := true; password := p;
                  request_error := false;
                  error_msg := NUL :: drop 1 (error_msg resp) |}
           /\ match class_used junk (type req) with
              | Some pt =>
                  generate_password R (password resp) pt
                    (atoi (Protocol.length req)) calls = Some (p, calls')
              | None => p = password resp /\ calls' = calls
              end).
Proof.
  unfold process_request, class_used. cbv zeta.
  change MIN_PASSWORD_LENGTH with 6. change MAX_PASSWORD_LENGTH with 32.
  intros H.
  destruct (keep_generating (type req) "q") eqn:Hk.
  - apply keep_generating_other in Hk. right.
    destruct (control_type "nams" (type req)) eqn:Ht.
    + right.
      destruct (control_length (Protocol.length req) 6 32) eqn:Hl.
      * right.
        destruct (match switch_type (tolower (type req)) with
                  | Some pt => Some pt
                  | None => junk
                  end) as [pt |] eqn:Hc.
        -- destruct (generate_password R (password resp) pt
                       (atoi (Protocol.length req)) calls)
             as [[p c1] |] eqn:Hg;
             cbn [mbind option_bind] in H; [| discriminate H].
           destruct (strcpy (error_msg resp) EmptyString) as [err |] eqn:He;
             cbn [mbind option_bind] in H; [| discriminate H].
           apply strcpy_inv in He. simpl in He. subst err.
           injection H as <- <-. repeat split; auto. exists p. auto.
        -- cbn [mbind option_bind] in H.
           destruct (strcpy (error_msg resp) EmptyString) as [err |] eqn:He;
             cbn [mbind option_bind] in H; [| discriminate H].
           apply strcpy_inv in He. simpl in He. subst err.
           injection H as <- <-. repeat split; auto.
           exists (password resp). auto.
      * left.
        destruct (strcpy (password resp) EmptyString) as [pw |] eqn:Hp;
          cbn [mbind option_bind] in H; [| discriminate H].
        destruct (strcpy (error_msg resp) invalid_length_text) as [err |] eqn:He;
          cbn [mbind option_bind] in H; [| discriminate H].
        apply strcpy_inv in Hp, He. simpl in Hp. subst pw err.
        injection H as <- <-. repeat split; auto.
    + left.
      destruct (strcpy (password resp) EmptyString) as [pw |] eqn:Hp;
        cbn [mbind option_bind] in H; [| discriminate H].
      destruct (strcpy (error_msg resp) invalid_type_text) as [err |] eqn:He;
        cbn [mbind option_bind] in H; [| discriminate H].
      apply strcpy_inv in Hp, He. simpl in Hp. subst pw err.
      injection H as <- <-. repeat split; auto.
  - apply keep_generating_sentinel in Hk. left.
    destruct (strcpy (password resp) EmptyString) as [pw |] eqn:Hp;
      cbn [mbind option_bind] in H; [| discriminate H].
    destruct (strcpy (error_msg resp) EmptyString) as [err |] eqn:He;
      cbn [mbind option_bind] in H; [| discriminate H].
    apply strcpy_inv in Hp, He. simpl in Hp, He. subst pw err.
    injection H as <- <-. repeat split; auto.
Qed.

(** A response is built in arrays of the sizes it found. *)
Lemma process_request_keeps_sizes R junk req resp calls r calls' :
  process_request R junk req resp calls = Some (r, calls') ->
  well_sized resp -> well_sized r.
Proof.
  intros H [Hp He].
  assert (List.length (NUL :: drop 1 (password resp)) = 33%nat) as Hpw
    by (simpl; rewrite length_drop; lia).
  assert (List.length (NUL :: drop 1 (error_msg resp)) = 50%nat) as Herr
    by (simpl; rewrite length_drop; lia).
  assert (forall (m : string) k, S (String.length m) = k -> (k <= 50)%nat ->
            List.length (chars m ++ NUL :: drop k (error_msg resp)) = 50%nat)
    as Hmsg.
  { intros m k Hk Hle. rewrite length_app, length_chars. simpl.
    rewrite length_drop. lia. }
  apply process_request_inv in H
    as [(_ & _ & ->) | [(_ & _ & _ & ->) | [(_ & _ & _ & _ & ->)
       | (_ & _ & _ & p & -> & Hc)]]]; unfold well_sized;
    cbn [password error_msg].
  - auto.
  - split; [exact Hpw |]. apply Hmsg; [reflexivity | lia].
  - split; [exact Hpw |]. apply Hmsg; [reflexivity | lia].
  - split; [| exact Herr].
    destruct (class_used junk (type req)) as [pt |].
    + rewrite generate_password_next in Hc.
      apply (generate_with_inv _ _ (next_char_steps R pt)) in Hc
        as (_ & Hl & _). lia.
    + destruct Hc as [-> _]. exact Hp.
Qed.

Lemma switch_type_stride c pt :
  switch_type c = Some pt ->
  stride pt = if (c =? "m")%char then 2%nat else 1%nat.
Proof.
  unfold switch_type.
  destruct (Ascii.eqb_spec c "n") as [-> | _]; [intros [= <-]; reflexivity |].
  destruct (Ascii.eqb_spec c "a") as [-> | _]; [intros [= <-]; reflexivity |].
  destruct (Ascii.eqb_spec c "m") as [-> | Hm]; [intros [= <-]; reflexivity |].
  destruct (Ascii.eqb_spec c "s") as [-> | _]; [intros [= <-]; reflexivity |].
  discriminate.
Qed.

(** X6.  With the declared array sizes and the non-negative values
    [rand()] returns, an iteration never writes outside the [password]
    and [error_msg] arrays of the response: whatever bytes the request
    carries and whatever the unassigned [password_type] holds, a
    response is built and both arrays keep their sizes. *)
Theorem iteration_stays_in_bounds
    (R : nat -> Z) (rand_nonneg : forall k, 0 <= R k)
    (uninitialised : option PasswordType)
    (password_msg : PasswordRequest) (response_msg : PasswordResponse)
    (calls : nat) :
  well_sized response_msg ->
  exists r calls',
    process_request R uninitialised password_msg response_msg calls
    = Some (r, calls')
    /\ well_sized r.
Proof.
  intros Hsz. now apply process_request_sized.
Qed.

Lemma iteration_stays_in_bounds_witness :
  exists r calls',
    process_request sample_rand (Some SECURE)
      {| type := NUL; length := "4294967328" |} blank_response O
    = Some (r, calls')
    /\ well_sized r.
Proof.
  apply (iteration_stays_in_bounds sample_rand sample_rand_nonneg).
  exact blank_response_sized.
Defined.



(** X8.  An iteration calls [rand()] only when it generates a
    password, and then once per character, twice for the selector m:
    for a selector other than NUL the call count grows by the number
    [atoi] reads from the length text, or twice that, when the response
    carries a password, and stays as it is for a refusal and for the
    sentinel.  For the NUL selector the class is what the unassigned
    [password_type] holds, and nothing is called when that is no
    enumerator. *)
Theorem rand_calls_per_request
    (R : nat -> Z) (uninitialised : option PasswordType)
    (password_msg : PasswordRequest)
    (response_msg : PasswordResponse) (calls : nat)
    (r : PasswordResponse) (calls' : nat) :
  process_request R uninitialised password_msg response_msg calls
  = Some (r, calls') ->
  (type password_msg <> NUL ->
   calls' =
   (calls +
    if keep_going r && negb (request_error r)
    then Z.to_nat (atoi (Protocol.length password_msg))
         * (if (type password_msg =? "m")%char then 2 else 1)
    else 0)%nat)
  /\ (type password_msg = NUL ->
      calls' =
      (calls +
       if keep_going r && negb (request_error r)
       then match uninitialised with
            | Some pt => Z.to_nat (atoi (Protocol.length password_msg))
                         * stride pt
            | None => 0
            end
       else 0)%nat).
Proof.
  intros H. apply process_request_inv in H
    as [(_ & -> & ->) | [(_ & -> & _ & ->) | [(_ & -> & _ & _ & ->)
       | (_ & Ht & _ & p & -> & Hc)]]]; simpl; try (split; intros; lia).
  assert (forall pt, generate_password R (password response_msg) pt
                       (atoi (Protocol.length password_msg)) calls
                     = Some (p, calls') ->
                     calls' = (calls + Z.to_nat (atoi (Protocol.length password_msg))
                                       * stride pt)%nat) as Hgen.
  { intros pt Hg. rewrite generate_password_next in Hg.
    now apply (generate_with_inv _ _ (next_char_steps R pt)) in Hg
      as (_ & _ & -> & _). }
  unfold class_used in Hc.
  destruct (switch_type (tolower (type password_msg))) as [pt |] eqn:Hsw.
  - apply Hgen in Hc. rewrite (switch_type_stride _ _ Hsw) in Hc. split.
    + intros _. rewrite Hc.
      apply control_type_nams in Ht as [E | [E | [E | [E | E]]]];
        rewrite E in *; first [discriminate Hsw | reflexivity].
    + intros E. rewrite E in Hsw. discriminate Hsw.
  - split.
    + intros Hnz.
      apply control_type_nams in Ht as [E | [E | [E | [E | E]]]];
        try contradiction; rewrite E in Hsw; discriminate Hsw.
    + intros _. destruct uninitialised as [pt |]; [now apply Hgen |].
      destruct Hc as [_ ->]. lia.
Qed.

Lemma rand_calls_per_request_witness :
  exists r c,
    process_request sample_rand None {| type := "m"; length := "010" |}
      blank_response 5%nat = Some (r, c)
    /\ c = 25%nat.
Proof.
  eexists _, _. split; [vm_compute; reflexivity |].
  destruct (rand_calls_per_request sample_rand None
              {| type := "m"; length := "010" |} blank_response 5%nat _ 25%nat
              ltac:(vm_compute; reflexivity)) as [H _].
  exact (H ltac:(discriminate)).
Defined.

(** ** More on sessions and the accept loop *)

Lemma answered_sized R script resp calls rs resp1 calls1 :
  answered R script resp calls rs resp1 calls1 ->
  well_sized resp -> well_sized resp1.
Proof.
  induction 1 as [| rd script resp calls r1 c1 rs resp1 calls1 _ Hp _ _ _ IH];
    [auto |].
  intros Hsz. apply IH. exact (process_request_keeps_sizes _ _ _ _ _ _ _ Hp Hsz).
Qed.

(** A session whose rounds were all answered goes on with what follows. *)
Lemma session_answered R script resp calls rs resp1 calls1 more :
  answered R script resp calls rs resp1 calls1 ->
  session R (script ++ more) resp calls
  = (map Responded rs ++ fst (session R more resp1 calls1),
     snd (session R more resp1 calls1)).
Proof.
  induction 1 as [resp calls
                 | rd script resp calls r1 c1 rs resp1 calls1 Hrecv Hp Hsend Hk _ IH].
  - simpl. now destruct (session R more resp calls).
  - simpl. replace (Server.recv_ret rd <=? 0) with false by (symmetry; lia).
    rewrite Hp, Hsend, Z.eqb_refl. simpl. rewrite Hk, IH. reflexivity.
Qed.

(** X9.  How a session runs and ends.  While every request is received,
    answered whole and not the sentinel, the session sends the
    responses of those iterations, one after the other.  It then ends
    by what comes next: nothing more when the peer sends no further
    request; the close of the socket and return code -1 when [recv]
    returns zero or an error, or when the response is not sent whole;
    the response with [keep_going] false and the close of the socket
    when the request carries the sentinel. *)
Theorem session_trace
    (R : nat -> Z) (pre : list round) (rd : round) (post : list round)
    (response_msg : PasswordResponse) (calls : nat)
    (rs : list PasswordResponse) (resp1 : PasswordResponse) (calls1 : nat) :
  answered R pre response_msg calls rs resp1 calls1 ->
  well_sized response_msg ->
  session R pre response_msg calls = (map Responded rs, Starved)
  /\ (Server.recv_ret rd <= 0 ->
      session R (pre ++ rd :: post) response_msg calls
      = (map Responded rs ++ [ClientClosed], Failed (-1)))
  /\ (forall r' c',
        0 < Server.recv_ret rd ->
        process_request R (leftover rd) (Server.recv_buf rd) resp1 calls1
        = Some (r', c') ->
        Server.send_ret rd <> sizeof_PasswordResponse ->
        session R (pre ++ rd :: post) response_msg calls
        = (map Responded rs ++ [ClientClosed], Failed (-1)))
  /\ (0 < Server.recv_ret rd ->
      is_sentinel (type (Server.recv_buf rd)) ->
      Server.send_ret rd = sizeof_PasswordResponse ->
      exists r',
        process_request R (leftover rd) (Server.recv_buf rd) resp1 calls1
        = Some (r', calls1)
        /\ keep_going r' = false
        /\ session R (pre ++ rd :: post) response_msg calls
           = (map Responded rs ++ [Responded r'; ClientClosed],
              Finished r' calls1)).
Proof.
  intros Hans Hsz.
  pose proof (answered_sized _ _ _ _ _ _ _ Hans Hsz) as Hsz1.
  split; [| split; [| split]].
  - rewrite <- (app_nil_r pre), (session_answered _ _ _ _ _ _ _ [] Hans).
    simpl. now rewrite app_nil_r.
  - intros Hrecv. rewrite (session_answered _ _ _ _ _ _ _ _ Hans). simpl.
    replace (Server.recv_ret rd <=? 0) with true by (symmetry; lia).
    reflexivity.
  - intros r' c' Hrecv Hp Hsend.
    rewrite (session_answered _ _ _ _ _ _ _ _ Hans). simpl.
    replace (Server.recv_ret rd <=? 0) with false by (symmetry; lia).
    rewrite Hp.
    replace (Server.send_ret rd =? sizeof_PasswordResponse) with false
      by (symmetry; lia).
    reflexivity.
  - intros Hrecv Hq Hsend.
    destruct (process_request_sentinel R (leftover rd) (Server.recv_buf rd)
                resp1 calls1 Hsz1 Hq) as (r' & Hp & _ & Hk & _).
    exists r'. split; [exact Hp |]. split; [exact Hk |].
    rewrite (session_answered _ _ _ _ _ _ _ _ Hans). simpl.
    replace (Server.recv_ret rd <=? 0) with false by (symmetry; lia).
    rewrite Hp, Hsend, Z.eqb_refl. simpl. rewrite Hk. reflexivity.
Qed.

Lemma session_trace_witness :
  exists r1 c1,
    process_request sample_rand None {| type := "n"; length := "8" |}
      blank_response O = Some (r1, c1)
    /\ session sample_rand (rounds dropped_connection) blank_response O
       = ([Responded r1; ClientClosed], Failed (-1)).
Proof.
  eexists _, _. split; [vm_compute; reflexivity |].
  match goal with
  | |- session _ _ _ _ = ([Responded ?r1; _], _) =>
      assert (answered sample_rand
                [ {| Server.recv_ret := 1025;
                     Server.recv_buf := {| type := "n"; length := "8" |};
                     leftover := None;
                     Server.send_ret := 85 |} ]
                blank_response O [r1] r1 8%nat) as Hans
  end.
  { eapply answered_cons;
      [simpl; lia | vm_compute; reflexivity | reflexivity | reflexivity
      | apply answered_nil]. }
  destruct (session_trace sample_rand _
              {| Server.recv_ret := 0;
                 Server.recv_buf := {| type := "n"; length := "8" |};
                 leftover := None;
                 Server.send_ret := 85 |} [] _ _ _ _ _ Hans
              blank_response_sized) as (_ & H & _).
  exact (H ltac:(simpl; lia)).
Defined.

(** X10.  What follows the end of a session is never read: once a
    session has finished with the sentinel, failed, or run into
    undefined behaviour, further requests in the script change neither
    its events nor its ending. *)
Theorem session_ignores_the_rest (R : nat -> Z) (script : list round) :
  forall response_msg calls evs e more,
    session R script response_msg calls = (evs, e) ->
    e <> Starved ->
    session R (script ++ more) response_msg calls = (evs, e).
Proof.
  induction script as [| rd script IH]; intros resp calls evs e more; simpl.
  - intros [= <- <-] H. contradiction.
  - destruct (Server.recv_ret rd <=? 0); [auto |].
    destruct (process_request R (leftover rd) (Server.recv_buf rd) resp calls)
      as [[r1 c1] |]; [| auto].
    destruct (negb (Server.send_ret rd =? sizeof_PasswordResponse)); [auto |].
    destruct (keep_going r1); [| auto].
    destruct (session R script r1 c1) as [evs1 e1] eqn:Hs.
    intros [= <- <-] He. now rewrite (IH r1 c1 evs1 e1 more Hs He).
Qed.

Lemma session_ignores_the_rest_witness :
  session sample_rand
    (rounds quitting_connection ++ rounds dropped_connection)
    blank_response O
  = session sample_rand (rounds quitting_connection) blank_response O.
Proof.
  destruct (session sample_rand (rounds quitting_connection) blank_response O)
    as [evs e] eqn:Hs.
  apply (session_ignores_the_rest sample_rand _ _ _ _ _ _ Hs).
  vm_compute in Hs. injection Hs as <- <-. discriminate.
Defined.

(** A session that failed met a transport fault. *)
Lemma session_failed_fault R script :
  forall resp calls evs code,
    session R script resp calls = (evs, Failed code) ->
    code = -1 /\ transport_fault R script resp calls.
Proof.
  induction script as [| rd script IH]; intros resp calls evs code; simpl;
    [discriminate |].
  destruct (Server.recv_ret rd <=? 0) eqn:Hrecv.
  { intros [= <- <-]. split; [reflexivity |]. apply fault_recv. lia. }
  destruct (process_request R (leftover rd) (Server.recv_buf rd) resp calls)
    as [[r1 c1] |] eqn:Hp; [| discriminate].
  destruct (Server.send_ret rd =? sizeof_PasswordResponse) eqn:Hsend; simpl.
  - destruct (keep_going r1) eqn:Hk; [| discriminate].
    destruct (session R script r1 c1) as [evs1 e1] eqn:Hs.
    intros [= <- ->]. destruct (IH r1 c1 evs1 code Hs) as [-> Hf].
    split; [reflexivity |].
    eapply fault_later; eauto; lia.
  - intros [= <- <-]. split; [reflexivity |].
    eapply fault_send; eauto; lia.
Qed.

(** X11.  When [main] returns from the accept loop, the connections in
    front of the one that made it return all ended with the sentinel,
    and the return code tells what happened on that one: 0 when
    [accept] failed; -1 when the menu was not sent whole, or when the
    session met a transport fault (a failed [recv], a response not
    sent whole).  No other code occurs. *)
Theorem exit_codes (R : nat -> Z) (queue : list connection) :
  forall response_msg calls evs code,
    accept_loop R queue response_msg calls = (evs, Exited code) ->
    exists before c after resp1 calls1,
      queue = before ++ c :: after
      /\ served_all R before response_msg calls resp1 calls1
      /\ ((code = 0 /\ accept_ret c < 0)
          \/ (code = -1 /\ 0 <= accept_ret c
              /\ menu_send_ret c <> sizeof_MenuMessage)
          \/ (code = -1 /\ 0 <= accept_ret c
              /\ menu_send_ret c = sizeof_MenuMessage
              /\ transport_fault R (rounds c) resp1 calls1)).
Proof.
  induction queue as [| c queue IH]; intros resp calls evs code; simpl;
    [discriminate |].
  destruct (accept_ret c <? 0) eqn:Ha.
  { intros [= <- <-]. exists [], c, queue, resp, calls.
    split; [reflexivity |]. split; [constructor |]. left. split; [reflexivity | lia]. }
  destruct (menu_send_ret c =? sizeof_MenuMessage) eqn:Hm; simpl.
  2:{ intros [= <- <-]. exists [], c, queue, resp, calls.
      split; [reflexivity |]. split; [constructor |].
      right. left. repeat split; lia. }
  destruct (session R (rounds c) resp calls) as [evs1 e] eqn:Hs.
  destruct e as [resp' calls' | code' | |]; try discriminate.
  - destruct (accept_loop R queue resp' calls') as [evs' st] eqn:Hl.
    intros [= <- ->].
    destruct (IH resp' calls' evs' code Hl)
      as (before & x & after & resp1 & calls1 & -> & Hserved & Hcause).
    exists (c :: before), x, after, resp1, calls1.
    split; [reflexivity |]. split; [| exact Hcause].
    eapply served_cons; eauto; lia.
  - intros [= <- <-]. apply session_failed_fault in Hs as [-> Hf].
    exists [], c, queue, resp, calls.
    split; [reflexivity |]. split; [constructor |].
    right. right. repeat split; auto; lia.
Qed.

Lemma exit_codes_witness :
  exists before c after resp1 calls1,
    [quitting_connection; dropped_connection] = before ++ c :: after
    /\ served_all sample_rand before blank_response O resp1 calls1
    /\ ((-1 = 0 /\ accept_ret c < 0)
        \/ (-1 = -1 /\ 0 <= accept_ret c
            /\ menu_send_ret c <> sizeof_MenuMessage)
        \/ (-1 = -1 /\ 0 <= accept_ret c
            /\ menu_send_ret c = sizeof_MenuMessage
            /\ transport_fault sample_rand (rounds c) resp1 calls1)).
Proof.
  exact (exit_codes sample_rand [quitting_connection; dropped_connection]
           blank_response O _ (-1) ltac:(vm_compute; reflexivity)).
Defined.

(** X12.  Clients that end their session with the sentinel do not stop
    the server: when every connection in the queue is accepted, gets
    the whole menu and sends the sentinel as its first request, the
    run consists, for each connection in turn, of the accept, the
    menu, one response with [keep_going] false, no error and empty
    texts, and the close of the socket; the server is then left
    waiting in [accept]. *)
Theorem quitting_clients_are_all_served
    (R : nat -> Z) (queue : list connection) :
  forall response_msg calls,
    Forall quits_at_once queue ->
    well_sized response_msg ->
    exists rs,
      List.length rs = List.length queue
      /\ Forall (fun r => keep_going r = false /\ request_error r = false
                          /\ text (password r) = EmptyString
                          /\ text (error_msg r) = EmptyString) rs
      /\ accept_loop R queue response_msg calls
         = (List.flat_map
              (fun r => [Accepted; MenuSent; Responded r; ClientClosed]) rs,
            Waiting).
Proof.
  induction queue as [| c queue IH]; intros resp calls Hall Hsz.
  - exists []. repeat split. constructor.
  - apply Forall_cons in Hall
      as [(Hacc & Hmenu & rd & script & Hrounds & Hrecv & Hq & Hsend) Hall].
    destruct (process_request_sentinel R (leftover rd) (Server.recv_buf rd)
                resp calls Hsz Hq)
      as (r0 & Hp & Hsz0 & Hk0 & He0 & Hpw0 & Herr0).
    destruct (IH r0 calls Hall Hsz0) as (rs & Hlen & Hrs & Hloop).
    exists (r0 :: rs). split; [simpl; now rewrite Hlen |].
    split; [constructor; auto |].
    simpl. replace (accept_ret c <? 0) with false by (symmetry; lia).
    rewrite Hmenu, Z.eqb_refl, Hrounds. simpl.
    replace (Server.recv_ret rd <=? 0) with false by (symmetry; lia).
    rewrite Hp, Hsend, Z.eqb_refl. simpl. rewrite Hk0, Hloop. reflexivity.
Qed.

Lemma quits_at_once_quitting : quits_at_once quitting_connection.
Proof.
  split; [simpl; lia |]. split; [reflexivity |].
  eexists _, _. split; [reflexivity |].
  split; [simpl; lia |]. split; [left; reflexivity | reflexivity].
Defined.

Lemma quitting_clients_are_all_served_witness :
  exists rs,
    List.length rs = 2%nat
    /\ Forall (fun r => keep_going r = false /\ request_error r = false
                        /\ text (password r) = EmptyString
                        /\ text (error_msg r) = EmptyString) rs
    /\ accept_loop sample_rand [quitting_connection; quitting_connection]
         blank_response O
       = (List.flat_map
            (fun r => [Accepted; MenuSent; Responded r; ClientClosed]) rs,
          Waiting).
Proof.
  apply (quitting_clients_are_all_served sample_rand
           [quitting_connection; quitting_connection] blank_response O).
  - constructor; [exact quits_at_once_quitting |].
    constructor; [exact quits_at_once_quitting | constructor].
  - exact blank_response_sized.
Defined.

(** ** More on the client *)

Lemma chars_append a b : chars (String.append a b) = chars a ++ chars b.
Proof. induction a as [| x a IH]; simpl; [reflexivity | now rewrite IH]. Qed.

Lemma c_str_clean s : (forall c, In c (chars s) -> c <> NUL) -> c_str s = s.
Proof.
  induction s as [| x s IH]; intros H; simpl; [reflexivity |].
  rewrite (eqb_NUL_false x) by (apply H; now left).
  rewrite IH; [reflexivity |]. intros c Hc. apply H. now right.
Qed.

Lemma blank_not_NUL s c : blank s -> In c (chars s) -> c <> NUL.
Proof. intros Hb Hc ->. apply Hb in Hc. discriminate Hc. Qed.

Lemma skip_space_blank lead s :
  blank lead -> skip_space (String.append lead s) = skip_space s.
Proof.
  induction lead as [| x lead IH]; intros Hb; simpl; [reflexivity |].
  rewrite (Hb x) by now left. apply IH. intros c Hc. apply Hb. now right.
Qed.

Lemma skip_space_all_blank s : blank s -> skip_space s = EmptyString.
Proof.
  induction s as [| x s IH]; intros Hb; simpl; [reflexivity |].
  rewrite (Hb x) by now left. apply IH. intros c Hc. apply Hb. now right.
Qed.

Lemma token_word tok trail :
  no_space tok -> blank trail ->
  Client.token (String.append tok trail) = (tok, trail).
Proof.
  induction tok as [| x tok IH]; intros Ht Hb; simpl.
  - destruct trail as [| y trail]; [reflexivity |]. simpl.
    rewrite (Hb y) by now left. reflexivity.
  - destruct (Ht x ltac:(now left)) as [-> _].
    rewrite IH; [reflexivity | | exact Hb].
    intros c Hc. apply Ht. now right.
Qed.

(** X13.  [sscanf] reads a request back from the line that spells it:
    for a type that is neither blank nor NUL and a length text without
    blanks, written with any white space in front, between (none
    suffices) and behind, it returns 2 and leaves exactly that type and
    that text in [password_msg], whatever they are. *)
Theorem sscanf_reads_back
    (lead gap tok trail : string) (c : ascii) (password_msg : PasswordRequest) :
  blank lead -> blank gap -> blank trail ->
  isspace c = false -> c <> NUL ->
  no_space tok -> tok <> EmptyString ->
  Client.sscanf
    (String.append lead (String c (String.append gap (String.append tok trail))))
    password_msg
  = (2, {| type := c; length := tok |}).
Proof.
  intros Hlead Hgap Htrail Hsp Hnz Htok Hne.
  unfold Client.sscanf. rewrite c_str_clean.
  2:{ intros x. rewrite chars_append. simpl.
      rewrite !chars_append, in_app_iff. simpl. rewrite !in_app_iff.
      intros [H | [<- | [H | [H | H]]]]; eauto using blank_not_NUL.
      now apply Htok in H. }
  rewrite (skip_space_blank lead _ Hlead). simpl skip_space. rewrite Hsp.
  rewrite (skip_space_blank gap _ Hgap).
  destruct tok as [| x tok]; [contradiction |].
  assert (skip_space (String.append (String x tok) trail)
          = String.append (String x tok) trail) as ->.
  { simpl. destruct (Htok x ltac:(now left)) as [-> _]. reflexivity. }
  rewrite (token_word _ _ Htok Htrail).
  rewrite (skip_space_all_blank _ Htrail). reflexivity.
Qed.

Lemma sscanf_reads_back_witness :
  Client.sscanf (String.append "  " (String "x" (String.append EmptyString
                   (String.append "-12abc" newline))))
    {| type := NUL; length := EmptyString |}
  = (2, {| type := "x"; length := "-12abc" |}).
Proof.
  apply sscanf_reads_back.
  - intros c Hc. vm_compute in Hc. destruct Hc as [<- | [<- | []]]; reflexivity.
  - intros c [].
  - intros c Hc. vm_compute in Hc. destruct Hc as [<- | []]. reflexivity.
  - reflexivity.
  - discriminate.
  - intros c Hc. vm_compute in Hc.
    repeat (destruct Hc as [<- | Hc]; [split; [reflexivity | discriminate] |]).
    contradiction.
  - discriminate.
Defined.

(** X14.  Over a transport without faults the client leaves its loop
    exactly for the sentinel: when the reply it receives is the
    server's response to the request it sent, the iteration ends the
    loop if the type sent is q or Q, whatever the length text, and
    otherwise stays in the loop with that request and that reply. *)
Theorem exchange_outcome
    (R : nat -> Z) (uninitialised : option PasswordType)
    (input : string) (password_msg req : PasswordRequest)
    (response_msg server_msg reply : PasswordResponse) (calls calls' : nat) :
  fst (Client.iteration input password_msg response_msg (delivered reply))
  = [req] ->
  process_request R uninitialised req server_msg calls
  = Some (reply, calls') ->
  (is_sentinel (type req) ->
   snd (Client.iteration input password_msg response_msg (delivered reply))
   = Client.Done)
  /\ (~ is_sentinel (type req) ->
      snd (Client.iteration input password_msg response_msg (delivered reply))
      = Client.Again req reply).
Proof.
  intros Hsent Hreply.
  apply process_request_flags in Hreply as [Hk _].
  assert (forall pm,
            fst ((fun password_msg : PasswordRequest =>
                    if negb (Client.send_ret (delivered reply)
                             =? sizeof_PasswordRequest)
                    then ([], Client.Aborted (-1))
                    else if Client.recv_ret (delivered reply) <=? 0
                    then ([password_msg], Client.Aborted (-1))
                    else if keep_going (Client.recv_buf (delivered reply))
                    then ([password_msg],
                          Client.Again password_msg
                            (Client.recv_buf (delivered reply)))
                    else ([password_msg], Client.Done)) pm) = [req] ->
            pm = req) as Hpm.
  { intros pm. simpl. destruct (keep_going reply); simpl; congruence. }
  revert Hsent. unfold Client.iteration.
  destruct (Client.sscanf input password_msg) as [arguments parsed].
  destruct (arguments =? 1).
  - intros Hsent. apply Hpm in Hsent. simpl. rewrite Hsent, Hk. split.
    + intros Hs. apply keep_generating_sentinel in Hs. now rewrite Hs.
    + intros Hs. apply keep_generating_other in Hs. now rewrite Hs.
  - destruct (negb (arguments =? 2)); [discriminate |].
    intros Hsent. apply Hpm in Hsent. simpl. rewrite Hsent, Hk. split.
    + intros Hs. apply keep_generating_sentinel in Hs. now rewrite Hs.
    + intros Hs. apply keep_generating_other in Hs. now rewrite Hs.
Qed.

Lemma exchange_outcome_witness :
  exists reply,
    process_request sample_rand None {| type := "Q"; length := "99" |}
      blank_response O = Some (reply, O)
    /\ Client.iteration "Q 99" {| type := NUL; length := EmptyString |}
         blank_response (delivered reply)
       = ([ {| type := "Q"; length := "99" |} ], Client.Done).
Proof.
  eexists. split; [vm_compute; reflexivity |].
  match goal with
  | |- Client.iteration ?i ?pm ?rm (delivered ?reply) = _ =>
      destruct (exchange_outcome sample_rand None i pm
                  {| type := "Q"; length := "99" |} rm blank_response reply
                  O O ltac:(reflexivity) ltac:(vm_compute; reflexivity))
        as [H _];
      specialize (H ltac:(right; reflexivity));
      rewrite (surjective_pairing (Client.iteration i pm rm (delivered reply))),
        H
  end.
  reflexivity.
Defined.

(** ** The colour codes *)

Import Utils.

(** X15.  The eight colours have the codes ESC [ 3 N m, with N the
    value of the enumerator, so no two colours share a code; RESET and
    every value outside the enumeration give the reset code ESC [ 0 m,
    and [print_with_color] writes the code of the colour, the text and
    the reset code, whatever colour it is given. *)
Theorem ansi_color_codes :
  (forall v, 0 <= v <= 7 ->
     generate_ansi_color_code v
     = escape (String "3" (String (char_of_int (char_code "0" + v)) "m")))
  /\ (forall v, v < 0 \/ 7 < v -> generate_ansi_color_code v = escape "0m")
  /\ (forall v w, 0 <= v <= 7 -> 0 <= w <= 7 ->
        generate_ansi_color_code v = generate_ansi_color_code w -> v = w)
  /\ (forall text v,
        print_with_color text v
        = String.append (generate_ansi_color_code v)
            (String.append (c_str text) (escape "0m"))).
Proof.
  assert (forall v, 0 <= v <= 7 ->
            v = 0 \/ v = 1 \/ v = 2 \/ v = 3 \/ v = 4 \/ v = 5 \/ v = 6 \/ v = 7)
    as Henum by (intros; lia).
  split; [| split; [| split]].
  - intros v Hv.
    destruct (Henum v Hv) as [-> | [-> | [-> | [-> | [-> | [-> | [-> | ->]]]]]]];
      reflexivity.
  - intros v Hv.
    unfold generate_ansi_color_code, BLACK, RED, GREEN, YELLOW, BLUE, MAGENTA,
      CYAN, WHITE, RESET.
    repeat match goal with
           | |- context [v =? ?k] =>
               destruct (Z.eqb_spec v k); [lia || reflexivity |]
           end.
    reflexivity.
  - intros v w Hv Hw.
    destruct (Henum v Hv) as [-> | [-> | [-> | [-> | [-> | [-> | [-> | ->]]]]]]];
      destruct (Henum w Hw) as [-> | [-> | [-> | [-> | [-> | [-> | [-> | ->]]]]]]];
      intros H; try reflexivity; discriminate H.
  - reflexivity.
Qed.

Lemma ansi_color_codes_witness :
  generate_ansi_color_code MAGENTA = escape "35m"
  /\ generate_ansi_color_code 42 = escape "0m"
  /\ errorhandler "Bind failed."
     = String.append (escape "35m")
         (String.append "Bind failed." (escape "0m")).
Proof.
  destruct ansi_color_codes as (H1 & H2 & _ & H4).
  split; [| split].
  - apply (H1 MAGENTA). unfold MAGENTA. lia.
  - apply H2. lia.
  - unfold errorhandler. rewrite H4, (H1 MAGENTA) by (unfold MAGENTA; lia).
    reflexivity.
Defined.

(** ** A line with the class alone *)

(** X16.  A line that holds nothing but one of the letters n, a, m, s
    gets a password of exactly 8 characters: the client sends the
    letter with the length text "8", the server accepts that length and
    generates, and over a transport without faults the client stays in
    its loop with a reply that flags no error. *)
Theorem class_alone_gets_eight
    (R : nat -> Z) (rand_nonneg : forall k, 0 <= R k)
    (uninitialised : option PasswordType) (t : ascii)
    (password_msg : PasswordRequest)
    (response_msg server_msg : PasswordResponse) (calls : nat) :
  In t (chars "nams") ->
  well_sized server_msg ->
  exists reply calls',
    process_request R uninitialised {| type := t; length := "8" |}
      server_msg calls
    = Some (reply, calls')
    /\ Client.iteration (String t newline) password_msg response_msg
         (delivered reply)
       = ([ {| type := t; length := "8" |} ],
          Client.Again {| type := t; length := "8" |} reply)
    /\ request_error reply = false
    /\ String.length (text (password reply)) = 8%nat.
Proof.
  intros Ht Hsz.
  destruct (class_letter t Ht) as (Hs & Hc & pt & Hpt).
  destruct (process_request_generates R uninitialised
              {| type := t; length := "8" |}
              server_msg calls Hsz rand_nonneg pt Hs Hc
              ltac:(reflexivity))
    as (reply & calls' & Hp & _ & Hk & He & _ & Hlen & _).
  { unfold class_used. simpl. rewrite Hpt. reflexivity. }
  exists reply, calls'. split; [exact Hp |]. split; [| split; [exact He | exact Hlen]].
  assert (isspace t = false /\ t <> NUL) as [Hsp Hnz].
  { vm_compute in Ht. destruct Ht as [<- | [<- | [<- | [<- | []]]]];
      (split; [reflexivity | discriminate]). }
  unfold Client.iteration.
  rewrite (sscanf_single_character t password_msg Hsp Hnz).
  simpl. rewrite Hk. reflexivity.
Qed.

Lemma class_alone_gets_eight_witness :
  exists reply calls',
    process_request sample_rand None {| type := "a"; length := "8" |}
      blank_response O = Some (reply, calls')
    /\ Client.iteration (String "a" newline)
         {| type := NUL; length := EmptyString |} blank_response
         (delivered reply)
       = ([ {| type := "a"; length := "8" |} ],
          Client.Again {| type := "a"; length := "8" |} reply)
    /\ request_error reply = false
    /\ String.length (text (password reply)) = 8%nat.
Proof.
  apply (class_alone_gets_eight sample_rand sample_rand_nonneg None "a").
  - vm_compute. tauto.
  - exact blank_response_sized.
Defined.
